(** * OBS feed router (src/obs-router/server.mjs)

    A shallow embedding of the stability-gated poll loop, the state store,
    the broadcast channel and the POST /override handler, followed by the
    properties of the specification that concern them.

    Conventions of the embedding.

    - The JS objects [state], [candidate], [kv] and [changes] are plain
      objects used as string-keyed maps.  Each is modelled by the finite map
      of its own properties.  A read [o[k]] of a key that is not an own
      property yields undefined or something inherited from Object.prototype
      (a function, or the prototype itself); neither is ever [===] to a
      string and neither has a string-valued [.value], so such a read behaves
      like a missing key and is modelled by [None].
    - An assignment [o[k] = v] creates or updates the own property [k],
      except for the key [__proto__], which is an accessor of
      Object.prototype: the assignment then leaves the own properties as
      they are.  [js_set] is that assignment.
    - Numbers that occur (REQUIRE_STABLE_READS and the counters) are
      integers, modelled in [Z]; a setting of REQUIRE_STABLE_READS that is
      not an integer is outside the model.
    - [Object.entries(kv)] is modelled by [map_to_list kv]; the order of the
      entries has no influence on the outcome of the loop
      ([reconcile_any_order]).
    - [nowIso()] reads the clock; each operation receives the readings it
      makes as arguments.
    - Strings are sequences of 8-bit characters; [String.prototype.trim] is
      a parameter of the development. *)

From Stdlib Require Import ZArith String Ascii.
From stdpp Require Import gmap strings list fin_maps.

(** ** Plain objects as maps *)

Definition proto_key : string := "__proto__".

(** [o[k] = v] *)
Definition js_set {A} (o : gmap string A) (k : string) (v : A) : gmap string A :=
  if decide (k = proto_key) then o else <[k:=v]> o.

(** ** Text helpers used by the decoder *)

Definition LF : ascii := "010"%char.
Definition CR : ascii := "013"%char.
Definition DQUOTE : ascii := "034"%char.

(** [s.split(/\r?\n/)]; [cur] holds the characters of the current line in
    reverse. *)
Fixpoint split_lines_go (cur s : string) : list string :=
  match s with
  | EmptyString => [String.rev cur]
  | String c rest =>
      if Ascii.eqb c LF then String.rev cur :: split_lines_go EmptyString rest
      else if Ascii.eqb c CR then
        match rest with
        | String c' rest' =>
            if Ascii.eqb c' LF
            then String.rev cur :: split_lines_go EmptyString rest'
            else split_lines_go (String c cur) rest
        | EmptyString => split_lines_go (String c cur) rest
        end
      else split_lines_go (String c cur) rest
  end.

Definition split_lines (s : string) : list string := split_lines_go EmptyString s.

Definition drop_leading_quote (s : string) : string :=
  match s with
  | String c rest => if Ascii.eqb c DQUOTE then rest else s
  | EmptyString => s
  end.

(** [s.replace(/^"|"$/g, "")]: one quote off the front and one off the end. *)
Definition strip_quotes (s : string) : string :=
  String.rev (drop_leading_quote (String.rev (drop_leading_quote s))).

(** [line.slice(0, n)] and [line.slice(n)] for [0 <= n <= line.length] *)
Definition slice_to (n : nat) (s : string) : string := substring 0 n s.
Definition slice_from (n : nat) (s : string) : string :=
  substring n (String.length s - n) s.

(** [trim] restricted to ASCII text: the white space and line terminators
    below 128 are TAB, LF, VT, FF, CR and SPACE. *)
Fixpoint trim_start (s : string) : string :=
  match s with
  | String c rest => if Ascii.is_space c then trim_start rest else s
  | EmptyString => s
  end.

Definition trim_ascii (s : string) : string :=
  String.rev (trim_start (String.rev (trim_start s))).

(** ** Data *)

(** A staged candidate [{ value, count }]. *)
Record cand := Cand { value : string; count : Z }.

Global Instance cand_eq_dec : EqDecision cand.
Proof. solve_decision. Defined.

(** Messages handed to [broadcast] or sent on connection; [JSON.stringify] is
    left implicit. *)
Inductive message :=
| Snapshot (ts : string) (st : gmap string string)
| Patch (ts : string) (changes : gmap string string).

Global Instance message_eq_dec : EqDecision message.
Proof. solve_decision. Defined.

(** A websocket client: its [readyState] and what has been sent to it. *)
Record client := Client { readyState : Z; inbox : list message }.

Definition OPEN : Z := 1.

(** The module-level variables [state], [candidate], [lastFetchOkAt], the
    set [wss.clients], and the sequence of calls of [broadcast] so far. *)
Record world := World {
  state : gmap string string;
  candidate : gmap string cand;
  lastFetchOkAt : option string;
  clients : list client;
  broadcasts : list message
}.

Definition initial : world := World ∅ ∅ None [] [].

Definition send (c : client) (payload : message) : client :=
  Client (readyState c) (inbox c ++ [payload]).

(** [broadcast(msgObj)] *)
Definition broadcast (w : world) (msg : message) : world :=
  World (state w) (candidate w) (lastFetchOkAt w)
        ((λ c, if (readyState c =? OPEN)%Z then send c msg else c) <$> clients w)
        (broadcasts w ++ [msg]).

(** [wss.on("connection", ...)]: the new client joins [wss.clients] and is
    sent one snapshot. *)
Definition connection (w : world) (ts : string) : world :=
  World (state w) (candidate w) (lastFetchOkAt w)
        (clients w ++ [send (Client OPEN []) (Snapshot ts (state w))])
        (broadcasts w).

(** [commitChange(key, value)]: the new [state] and the returned flag. *)
Definition commitChange (st : gmap string string) (key val : string)
  : gmap string string * bool :=
  if decide (st !! key = Some val) then (st, false) else (js_set st key val, true).

(** What [fetch] delivers to [pollOnce]: a rejection, or a response with its
    [ok] flag, its status and its body ([None] when [res.text()] rejects). *)
Inductive fetch_result :=
| FetchRejected
| FetchResponse (ok : bool) (status : Z) (body : option string).

(** ** The request of POST /override *)

(** A value found in the parsed JSON body.  A value that is neither null nor
    a string (a number, a boolean, an array, an object) is represented by
    its truthiness and by what its [toString()] call yields: a string, or
    [None] when the call throws (an object that carries its own
    [toString] member). *)
Inductive jsvalue :=
| JUndefined
| JNull
| JString (s : string)
| JOther (truthy : bool) (to_string : option string).

Record request_body := Body { body_key : jsvalue; body_value : jsvalue }.

(** The answers of the handler.  In [Json200 key val], [val] is what
    [state[key]] yields when the answer is built: [Some s] for the string
    [s], [None] for anything that is not a string. *)
Inductive response :=
| Status400 (error : string)
| Status500
| Json200 (key : string) (val : option string).

Definition js_truthy (v : jsvalue) : bool :=
  match v with
  | JUndefined | JNull => false
  | JString s => negb (String.eqb s EmptyString)
  | JOther t _ => t
  end.

Definition typeof_string (v : jsvalue) : bool :=
  match v with JString _ => true | _ => false end.

(** [(value ?? "").toString()]; [None] when the call throws. *)
Definition coerce_value (v : jsvalue) : option string :=
  match v with
  | JUndefined | JNull => Some EmptyString
  | JString s => Some s
  | JOther _ r => r
  end.

(** [app.post("/override", ...)].  [req] is [req.body] ([None] when it is
    undefined, so that both fields are read from [{}]).  The guard
    [!key || typeof key !== "string"] lets through the strings that are
    truthy.  An exception in the handler leaves the variables as they are
    and is answered by the framework with status 500. *)
Definition override (w : world) (req : option request_body) (ts : string)
  : world * response :=
  let b := default (Body JUndefined JUndefined) req in
  match body_key b with
  | JString key =>
      if negb (js_truthy (JString key)) then (w, Status400 "Missing key")
      else
        match coerce_value (body_value b) with
        | None => (w, Status500)
        | Some v =>
            let w1 :=
              if decide (state w !! key = Some v) then w
              else
                broadcast
                  (World (js_set (state w) key v) (candidate w)
                         (lastFetchOkAt w) (clients w) (broadcasts w))
                  (Patch ts {[ key := v ]}) in
            (w1, Json200 key (state w1 !! key))
        end
  | _ => (w, Status400 "Missing key")
  end.

Definition request_key (req : option request_body) : jsvalue :=
  body_key (default (Body JUndefined JUndefined) req).

Definition request_value (req : option request_body) : jsvalue :=
  body_value (default (Body JUndefined JUndefined) req).

(** A key the guard of the handler lets through: a string that is not
    empty. *)
Definition accepted_key (key : jsvalue) (k : string) : Prop :=
  key = JString k ∧ k ≠ EmptyString.

(** ** Events *)

(** What can happen to the server: a run of [loop()], a POST /override
    request, a new websocket connection. *)
Inductive event :=
| Poll (r : fetch_result) (t_ok t_msg : string)
| Override (req : option request_body) (ts : string)
| Connection (ts : string).

(** ** Sample inputs *)

(** The text of a sheet with the given rows under its header line. *)
Definition sheet (rows : list (string * string)) : string :=
  "key,value"
  +:+ foldr (λ '(k, v) rest, String LF (k +:+ "," +:+ v +:+ rest))
            EmptyString rows.

Definition fetched (rows : list (string * string)) : fetch_result :=
  FetchResponse true 200 (Some (sheet rows)).

Definition poll (rows : list (string * string)) : event :=
  Poll (fetched rows) "t" "t".

Definition post (k v : string) : event :=
  Override (Some (Body (JString k) (JString v))) "t".

(** ** Further vocabulary: text *)

Definition CRLF : string := String CR (String LF EmptyString).

(** The lines [l :: ls] joined by the separator [sep]. *)
Definition join_lines (sep : string) (l : string) (ls : list string) : string :=
  l +:+ foldr (λ x rest, sep +:+ x +:+ rest) EmptyString ls.

(** A line that holds no line feed and does not end in a carriage
    return. *)
Fixpoint clean_line (s : string) : bool :=
  match s with
  | EmptyString => true
  | String c rest =>
      negb (Ascii.eqb c LF)
      && negb (Ascii.eqb c CR && String.eqb rest EmptyString)
      && clean_line rest
  end.

(** The character [c] occurs in [s]. *)
Fixpoint contains (c : ascii) (s : string) : bool :=
  match s with
  | EmptyString => false
  | String c' rest => Ascii.eqb c' c || contains c rest
  end.

Definition starts_with_quote (s : string) : bool :=
  match s with String c _ => Ascii.eqb c DQUOTE | EmptyString => false end.

(** ** Further vocabulary: clients and endpoints *)

(** What a client that keeps a copy of the state does with a message: a
    snapshot replaces the copy, a patch overwrites the keys it carries. *)
Definition apply_message (copy : gmap string string) (m : message)
  : gmap string string :=
  match m with Snapshot _ st => st | Patch _ ch => ch ∪ copy end.

Definition replay (ms : list message) : gmap string string :=
  foldl apply_message ∅ ms.

(** The copy of every open client is the committed state. *)
Definition synced (w : world) : Prop :=
  ∀ c, c ∈ clients w → readyState c = OPEN → replay (inbox c) = state w.

(** The client [c] after the messages [ms] have been broadcast. *)
Definition receive (ms : list message) (c : client) : client :=
  if (readyState c =? OPEN)%Z then Client (readyState c) (inbox c ++ ms) else c.

(** An override request whose key is [__proto__]. *)
Definition proto_override (e : event) : Prop :=
  match e with
  | Override req _ => request_key req = JString proto_key
  | _ => False
  end.

(** An override request that posts [v] for the accepted key [k]. *)
Definition posts (k v : string) (e : event) : Prop :=
  match e with
  | Override req _ =>
      accepted_key (request_key req) k
      ∧ coerce_value (request_value req) = Some v
  | _ => False
  end.

(** The answer of [app.get("/health", ...)]: [ok], [ts], [lastFetchOkAt]
    and [keys], the number of own keys of [state]. *)
Record health_report := Health {
  health_ok : bool;
  health_ts : string;
  health_lastFetchOkAt : option string;
  health_keys : nat
}.

Definition health (w : world) (ts : string) : health_report :=
  Health true ts (lastFetchOkAt w) (size (state w)).

(** The string does not start with white space. *)
Definition no_leading_space (s : string) : Prop :=
  match s with
  | String c _ => Ascii.is_space c = false
  | EmptyString => True
  end.

Section Router.

(** The tunable [REQUIRE_STABLE_READS] and the built-in
    [String.prototype.trim]. *)
Variable REQUIRE_STABLE_READS : Z.
Variable trim : string → string.

(** One iteration of the [for] loop of [parseCsvKeyValue]. *)
Definition parse_line (out : gmap string string) (line : string)
  : gmap string string :=
  match index 0 "," line with
  | None => out
  | Some comma =>
      let k := trim (strip_quotes (slice_to comma line)) in
      let v := trim (strip_quotes (slice_from (comma + 1) line)) in
      if decide (k = EmptyString) then out else js_set out k v
  end.

(** [parseCsvKeyValue(text)]: the header line is skipped. *)
Definition parseCsvKeyValue (text : string) : gmap string string :=
  foldl parse_line ∅ (drop 1 (split_lines (trim text))).

(** [pollOnce()]: the decoded object, or [None] when it throws. *)
Definition pollOnce (r : fetch_result) : option (gmap string string) :=
  match r with
  | FetchRejected => None
  | FetchResponse false _ _ => None
  | FetchResponse true _ None => None
  | FetchResponse true _ (Some text) => Some (parseCsvKeyValue text)
  end.

(** The variables the [for] loop of [loop] works on: [state],
    [candidate] and the local [changes]. *)
Record pass := Pass {
  p_state : gmap string string;
  p_candidate : gmap string cand;
  p_changes : gmap string string
}.

(** Lines 161 to 166: the candidate record held by [candidate[key]] after
    the stability logic, given what it held before. *)
Definition stage (c : option cand) (next : string) : cand :=
  match c with
  | Some c0 =>
      if decide (value c0 = next) then Cand (value c0) (count c0 + 1)
      else Cand next 1
  | None => Cand next 1
  end.

(** The body of the [for] loop of [loop], for the entry [[key, raw]].
    [raw] is a string, so [raw ?? ""] is [raw].  No entry of a decoded
    object has the key [__proto__] ([pollOnce_proto]), so what is read back
    from [candidate[key]] after the stability logic is the record [c] just
    stored. *)
Definition loop_body (p : pass) (e : string * string) : pass :=
  let '(key, raw) := e in
  let next := trim raw in
  if decide (p_state p !! key = Some next) then
    Pass (p_state p) (delete key (p_candidate p)) (p_changes p)
  else
    let c := stage (p_candidate p !! key) next in
    let cand1 := js_set (p_candidate p) key c in
    if (REQUIRE_STABLE_READS <=? count c)%Z then
      let cand2 := delete key cand1 in
      let '(st, changed) := commitChange (p_state p) key next in
      Pass st cand2 (if changed then js_set (p_changes p) key next else p_changes p)
    else Pass (p_state p) cand1 (p_changes p).

(** The reconciliation of one decoded object: the [for] loop over
    [Object.entries(kv)], started with [changes = {}]. *)
Definition reconcile (w : world) (kv : gmap string string) : pass :=
  foldl loop_body (Pass (state w) (candidate w) ∅) (map_to_list kv).

(** One run of [loop()], up to the re-arming of the timer.  [t_ok] and
    [t_msg] are the two clock readings. *)
Definition loop (w : world) (r : fetch_result) (t_ok t_msg : string) : world :=
  match pollOnce r with
  | None => w
  | Some kv =>
      let p := reconcile w kv in
      let w1 := World (p_state p) (p_candidate p) (Some t_ok)
                      (clients w) (broadcasts w) in
      if (0 <? size (p_changes p))%nat
      then broadcast w1 (Patch t_msg (p_changes p))
      else w1
  end.

Definition step (w : world) (e : event) : world :=
  match e with
  | Poll r t_ok t_msg => loop w r t_ok t_msg
  | Override req ts => (override w req ts).1
  | Connection ts => connection w ts
  end.

Definition run (w : world) (h : list event) : world := foldl step w h.

(** ** Vocabulary of the properties *)

(** The value decoded for [k] by a poll, as the loop sees it ([next]):
    [None] when the poll fails or the decoded object has no [k]. *)
Definition decoded (k : string) (r : fetch_result) : option string :=
  kv ← pollOnce r; trim <$> kv !! k.

(** What each successful poll cycle of a history decoded for [k], oldest
    first; [None] marks a successful cycle that did not decode [k]. *)
Fixpoint cycle_reads (k : string) (h : list event) : list (option string) :=
  match h with
  | [] => []
  | Poll r _ _ :: h' =>
      match pollOnce r with
      | Some kv => (trim <$> kv !! k) :: cycle_reads k h'
      | None => cycle_reads k h'
      end
  | _ :: h' => cycle_reads k h'
  end.

(** The values decoded for [k] along a history, oldest first. *)
Definition observations (k : string) (h : list event) : list string :=
  omap id (cycle_reads k h).

(** The [changes] a message carries; a snapshot carries none. *)
Definition patch_changes (m : message) : gmap string string :=
  match m with Patch _ ch => ch | Snapshot _ _ => ∅ end.

(** Invariant 2 of the data model. *)
Definition candidate_differs (w : world) : Prop :=
  ∀ k c, candidate w !! k = Some c → state w !! k ≠ Some (value c).

(** An event other than an override request. *)
Definition no_override (e : event) : Prop :=
  match e with Override _ _ => False | _ => True end.

(** An event that is a poll cycle or a connection, where a poll cycle
    either fails or decodes [v] for [k]. *)
Definition repeats (k v : string) (e : event) : Prop :=
  match e with
  | Poll r _ _ => pollOnce r = None ∨ decoded k r = Some v
  | Override _ _ => False
  | Connection _ => True
  end.

(** A poll cycle whose fetch and decoding succeed. *)
Definition successful_poll (e : event) : Prop :=
  match e with Poll r _ _ => is_Some (pollOnce r) | _ => False end.

(** None of the messages mentions [k] among its changes. *)
Definition silent_on (k : string) (ms : list message) : Prop :=
  Forall (λ m, patch_changes m !! k = None) ms.

(** A poll cycle that decodes [v] for [k]. *)
Definition reads (k v : string) (e : event) : Prop :=
  match e with Poll r _ _ => decoded k r = Some v | _ => False end.

(** Successive values that each differ from the one before, [prev] being
    the value before the first. *)
Fixpoint alternating (prev : option string) (vs : list string) : Prop :=
  match vs with
  | [] => True
  | v :: vs' => prev ≠ Some v ∧ alternating (Some v) vs'
  end.

(** The cycle commits [v] for [k]: its loop body reaches
    [changes[key] = next] for that key and value. *)
Definition commits (w : world) (r : fetch_result) (k v : string) : Prop :=
  ∃ kv, pollOnce r = Some kv ∧ p_changes (reconcile w kv) !! k = Some v.

(** Every candidate counts observations that end the list of the values
    decoded for its key. *)
Definition tracked (h : list event) (w : world) : Prop :=
  ∀ k c, candidate w !! k = Some c →
         (1 ≤ count c)%Z
         ∧ ∃ older, observations k h
                    = older ++ replicate (Z.to_nat (count c)) (value c).

(** ** The effect of one cycle on one key, and measures used in the proofs *)

(** What the loop body does to the entries of one key: its committed
    value, its candidate and its entry in [changes]. *)
Definition key_step (cur : option string) (c : option cand)
    (ch : option string) (next : string)
  : option string * option cand * option string :=
  if decide (cur = Some next) then (cur, None, ch)
  else if (REQUIRE_STABLE_READS <=? count (stage c next))%Z
       then (Some next, None, Some next)
       else (cur, Some (stage c next), ch).

(** The entries of one key in the variables of the loop. *)
Definition view (p : pass) (k : string)
  : option string * option cand * option string :=
  (p_state p !! k, p_candidate p !! k, p_changes p !! k).

(** The patch a cycle hands to [broadcast], if any. *)
Definition cycle_patch (p : pass) (t_msg : string) : list message :=
  if (0 <? size (p_changes p))%nat then [Patch t_msg (p_changes p)] else [].

(** How far the candidate of [k] has come towards committing [v]. *)
Definition progress (w : world) (k v : string) : Z :=
  match candidate w !! k with
  | Some c => if decide (value c = v) then count c else 0
  | None => 0
  end.

(** The counter of the candidate of [k], if any, is at least 1, as it is
    in every world reached from the initial one. *)
Definition counts_positive (w : world) (k : string) : Prop :=
  ∀ c, candidate w !! k = Some c → (1 ≤ count c)%Z.

(** After [j] successive reads of [v] for [k]: [v] is committed, or the
    candidate of [k] has counted at least [j] of them and is still below
    the threshold. *)
Definition on_the_way (j : Z) (w : world) (k v : string) : Prop :=
  state w !! k = Some v
  ∨ (j ≤ progress w k v)%Z ∧ counts_positive w k
    ∧ ((1 ≤ j)%Z → (progress w k v < REQUIRE_STABLE_READS)%Z).

(** ** Further vocabulary: decoding and histories *)

(** Every key and every value of the object is left as it is by [trim]. *)
Definition trimmed_entries (out : gmap string string) : Prop :=
  ∀ k v, out !! k = Some v → trim k = k ∧ trim v = v.

(** Every candidate counter is below the threshold. *)
Definition below_threshold (w : world) : Prop :=
  ∀ k c, candidate w !! k = Some c → (count c < REQUIRE_STABLE_READS)%Z.

(** ** Assignment, and the loop body key by key *)

Lemma run_cons w e h : run w (e :: h) = run (step w e) h.
Proof. reflexivity. Qed.

Lemma run_app w h1 h2 : run w (h1 ++ h2) = run (run w h1) h2.
Proof. apply foldl_app. Qed.

Lemma js_set_lookup_ne {A} (o : gmap string A) k k' v :
  k ≠ k' → js_set o k v !! k' = o !! k'.
Proof.
  intros Hne. unfold js_set. case_decide; [done|]. by rewrite lookup_insert_ne.
Qed.

Lemma js_set_lookup_eq {A} (o : gmap string A) k v :
  k ≠ proto_key → js_set o k v !! k = Some v.
Proof.
  intros Hne. unfold js_set. case_decide; [done|]. by rewrite lookup_insert_eq.
Qed.

Lemma js_set_proto {A} (o : gmap string A) k v :
  o !! proto_key = None → js_set o k v !! proto_key = None.
Proof.
  intros Ho. unfold js_set. case_decide as Hk; [done|].
  by rewrite lookup_insert_ne.
Qed.

Lemma loop_body_other p key raw k :
  key ≠ k → view (loop_body p (key, raw)) k = view p k.
Proof.
  intros Hne. unfold loop_body, view, commitChange.
  repeat case_decide; repeat case_match; simplify_eq/=;
    rewrite ?lookup_delete_ne, ?js_set_lookup_ne by done; done.
Qed.

Lemma loop_body_self p key raw :
  key ≠ proto_key →
  view (loop_body p (key, raw)) key
  = key_step (p_state p !! key) (p_candidate p !! key) (p_changes p !! key)
             (trim raw).
Proof.
  intros Hne. unfold loop_body, view, key_step, commitChange.
  repeat case_decide; repeat case_match; simplify_eq/=;
    rewrite ?lookup_delete_eq, ?js_set_lookup_eq by done; done.
Qed.

Lemma foldl_loop_body_other l p k :
  k ∉ l.*1 → view (foldl loop_body p l) k = view p k.
Proof.
  revert p. induction l as [|[key raw] l IH]; intros p Hk; [done|].
  rewrite fmap_cons in Hk. apply not_elem_of_cons in Hk as [Hne Hk].
  simpl. rewrite IH; [|done]. by apply loop_body_other.
Qed.

Lemma foldl_loop_body_self l p k raw :
  NoDup l.*1 → (k, raw) ∈ l → k ≠ proto_key →
  view (foldl loop_body p l) k
  = key_step (p_state p !! k) (p_candidate p !! k) (p_changes p !! k)
             (trim raw).
Proof.
  revert p. induction l as [|[key raw'] l IH]; intros p Hnd Hin Hk.
  { by apply elem_of_nil in Hin. }
  rewrite fmap_cons in Hnd. apply NoDup_cons in Hnd as [Hfresh Hnd].
  apply elem_of_cons in Hin as [Heq|Hin]; simpl.
  - simplify_eq. rewrite foldl_loop_body_other; [|done].
    by apply loop_body_self.
  - assert (key ≠ k) as Hne.
    { intros ->. apply Hfresh. apply list_elem_of_fmap. by exists (k, raw). }
    rewrite (IH _ Hnd Hin Hk).
    pose proof (loop_body_other p key raw' k Hne) as Hv.
    unfold view in Hv. injection Hv as -> -> ->. done.
Qed.

(** The decoder builds its result by assignment, so the result never has
    an own property [__proto__]. *)
Lemma parse_line_proto out line :
  out !! proto_key = None → parse_line out line !! proto_key = None.
Proof.
  intros Ho. unfold parse_line. case_match; [|done].
  case_decide; [done|]. by apply js_set_proto.
Qed.

Lemma parseCsvKeyValue_proto text : parseCsvKeyValue text !! proto_key = None.
Proof.
  unfold parseCsvKeyValue.
  generalize (drop 1 (split_lines (trim text))). intros ls.
  assert (∀ out, out !! proto_key = None →
                 foldl parse_line out ls !! proto_key = None) as Hgen.
  { induction ls as [|l ls IH]; intros out Ho; [done|].
    simpl. apply IH. by apply parse_line_proto. }
  apply Hgen, lookup_empty.
Qed.

Lemma pollOnce_proto r kv : pollOnce r = Some kv → kv !! proto_key = None.
Proof.
  destruct r as [|[] status [text|]]; simpl; intros ?; simplify_eq.
  apply parseCsvKeyValue_proto.
Qed.

Lemma pollOnce_key r kv k raw :
  pollOnce r = Some kv → kv !! k = Some raw → k ≠ proto_key.
Proof. intros Hr Hk ->. apply pollOnce_proto in Hr. congruence. Qed.

(** The outcome of the [for] loop, key by key.  The order in which
    [Object.entries] lists the keys plays no part in it. *)
Lemma reconcile_view w kv k :
  kv !! proto_key = None →
  view (reconcile w kv) k
  = match kv !! k with
    | Some raw => key_step (state w !! k) (candidate w !! k) None (trim raw)
    | None => (state w !! k, candidate w !! k, None)
    end.
Proof.
  intros Hproto. unfold reconcile. destruct (kv !! k) as [raw|] eqn:Hk.
  - rewrite (foldl_loop_body_self _ _ k raw); simpl.
    + by rewrite lookup_empty.
    + apply NoDup_fst_map_to_list.
    + by apply elem_of_map_to_list.
    + intros ->. congruence.
  - rewrite foldl_loop_body_other; simpl.
    + unfold view. simpl. by rewrite lookup_empty.
    + intros [[k' raw] [-> Hin]]%list_elem_of_fmap.
      apply elem_of_map_to_list in Hin. simpl in Hk. congruence.
Qed.

Lemma pass_eq (p q : pass) : (∀ k, view p k = view q k) → p = q.
Proof.
  intros Hv. destruct p as [s1 c1 h1], q as [s2 c2 h2].
  f_equal; apply map_eq; intros k; specialize (Hv k); unfold view in Hv;
    simpl in Hv; by simplify_eq.
Qed.

(** Whatever the order in which the entries of the decoded object are
    visited, the loop ends with the same [state], [candidate] and
    [changes]. *)
Lemma reconcile_any_order w kv l :
  kv !! proto_key = None → l ≡ₚ map_to_list kv →
  foldl loop_body (Pass (state w) (candidate w) ∅) l = reconcile w kv.
Proof.
  intros Hproto Hperm. apply pass_eq. intros k.
  rewrite (reconcile_view w kv k Hproto).
  destruct (kv !! k) as [raw|] eqn:Hk.
  - rewrite (foldl_loop_body_self _ _ k raw); simpl.
    + by rewrite lookup_empty.
    + rewrite Hperm. apply NoDup_fst_map_to_list.
    + rewrite Hperm. by apply elem_of_map_to_list.
    + intros ->. congruence.
  - rewrite foldl_loop_body_other; simpl.
    + unfold view. simpl. by rewrite lookup_empty.
    + rewrite Hperm. intros [[k' raw] [-> Hin]]%list_elem_of_fmap.
      apply elem_of_map_to_list in Hin. simpl in Hk. congruence.
Qed.

Lemma loop_ok w r kv t_ok t_msg :
  pollOnce r = Some kv →
  state (loop w r t_ok t_msg) = p_state (reconcile w kv)
  ∧ candidate (loop w r t_ok t_msg) = p_candidate (reconcile w kv)
  ∧ lastFetchOkAt (loop w r t_ok t_msg) = Some t_ok
  ∧ broadcasts (loop w r t_ok t_msg)
    = broadcasts w ++ cycle_patch (reconcile w kv) t_msg.
Proof.
  intros Hr. unfold loop, cycle_patch. rewrite Hr.
  destruct (0 <? size (p_changes (reconcile w kv)))%nat; simpl.
  - done.
  - by rewrite app_nil_r.
Qed.

Lemma loop_failed w r t_ok t_msg :
  pollOnce r = None → loop w r t_ok t_msg = w.
Proof. intros Hr. unfold loop. by rewrite Hr. Qed.

Lemma loop_view w r kv k t_ok t_msg :
  pollOnce r = Some kv →
  (state (loop w r t_ok t_msg) !! k,
   candidate (loop w r t_ok t_msg) !! k,
   p_changes (reconcile w kv) !! k)
  = match kv !! k with
    | Some raw => key_step (state w !! k) (candidate w !! k) None (trim raw)
    | None => (state w !! k, candidate w !! k, None)
    end.
Proof.
  intros Hr. destruct (loop_ok w r kv t_ok t_msg Hr) as (-> & -> & _ & _).
  apply (reconcile_view w kv k). by eapply pollOnce_proto.
Qed.

Lemma js_set_is_Some {A} (o : gmap string A) k v k' :
  is_Some (o !! k') → is_Some (js_set o k v !! k').
Proof.
  intros Hk. unfold js_set. case_decide; [done|].
  destruct (decide (k = k')) as [->|Hne].
  - rewrite lookup_insert_eq. by eexists.
  - by rewrite lookup_insert_ne.
Qed.

Lemma override_state w req ts :
  state (override w req ts).1 = state w
  ∨ ∃ key v, state (override w req ts).1 = js_set (state w) key v.
Proof.
  unfold override. repeat case_match; simpl; eauto.
Qed.

Lemma override_candidate w req ts :
  candidate (override w req ts).1 = candidate w.
Proof. unfold override. by repeat case_match. Qed.

(** The three outcomes of a successful cycle for a key it decodes, and the
    outcome for a key it does not decode. *)
Lemma loop_key_same w r kv k raw t_ok t_msg :
  pollOnce r = Some kv → kv !! k = Some raw →
  state w !! k = Some (trim raw) →
  state (loop w r t_ok t_msg) !! k = state w !! k
  ∧ candidate (loop w r t_ok t_msg) !! k = None
  ∧ p_changes (reconcile w kv) !! k = None.
Proof.
  intros Hr Hk Hcur. pose proof (loop_view w r kv k t_ok t_msg Hr) as Hv.
  rewrite Hk in Hv. unfold key_step in Hv.
  rewrite decide_True in Hv by done. by injection Hv as -> -> ->.
Qed.

Lemma loop_key_commit w r kv k raw t_ok t_msg :
  pollOnce r = Some kv → kv !! k = Some raw →
  state w !! k ≠ Some (trim raw) →
  (REQUIRE_STABLE_READS ≤ count (stage (candidate w !! k) (trim raw)))%Z →
  state (loop w r t_ok t_msg) !! k = Some (trim raw)
  ∧ candidate (loop w r t_ok t_msg) !! k = None
  ∧ p_changes (reconcile w kv) !! k = Some (trim raw).
Proof.
  intros Hr Hk Hcur Hcount.
  pose proof (loop_view w r kv k t_ok t_msg Hr) as Hv.
  rewrite Hk in Hv. unfold key_step in Hv.
  rewrite decide_False in Hv by done.
  apply Z.leb_le in Hcount. rewrite Hcount in Hv. by injection Hv as -> -> ->.
Qed.

Lemma loop_key_stage w r kv k raw t_ok t_msg :
  pollOnce r = Some kv → kv !! k = Some raw →
  state w !! k ≠ Some (trim raw) →
  (count (stage (candidate w !! k) (trim raw)) < REQUIRE_STABLE_READS)%Z →
  state (loop w r t_ok t_msg) !! k = state w !! k
  ∧ candidate (loop w r t_ok t_msg) !! k
    = Some (stage (candidate w !! k) (trim raw))
  ∧ p_changes (reconcile w kv) !! k = None.
Proof.
  intros Hr Hk Hcur Hcount.
  pose proof (loop_view w r kv k t_ok t_msg Hr) as Hv.
  rewrite Hk in Hv. unfold key_step in Hv.
  rewrite decide_False in Hv by done.
  apply Z.leb_gt in Hcount. rewrite Hcount in Hv. by injection Hv as -> -> ->.
Qed.

Lemma loop_key_absent w r kv k t_ok t_msg :
  pollOnce r = Some kv → kv !! k = None →
  state (loop w r t_ok t_msg) !! k = state w !! k
  ∧ candidate (loop w r t_ok t_msg) !! k = candidate w !! k
  ∧ p_changes (reconcile w kv) !! k = None.
Proof.
  intros Hr Hk. pose proof (loop_view w r kv k t_ok t_msg Hr) as Hv.
  rewrite Hk in Hv. by injection Hv as -> -> ->.
Qed.

Lemma loop_keeps_keys w r k v t_ok t_msg :
  state w !! k = Some v → is_Some (state (loop w r t_ok t_msg) !! k).
Proof.
  intros Hk. destruct (pollOnce r) as [kv|] eqn:Hr.
  - pose proof (loop_view w r kv k t_ok t_msg Hr) as Hv.
    unfold key_step in Hv.
    destruct (kv !! k) as [raw|];
      [destruct (decide (state w !! k = Some (trim raw)));
         [|destruct (REQUIRE_STABLE_READS <=? _)%Z]|];
      injection Hv as Hs _ _; rewrite Hs, ?Hk; by eexists.
  - rewrite loop_failed by done. by eexists.
Qed.

(** The entry of [changes] for a key records exactly a change of its
    committed value. *)
Lemma changes_lookup w r kv k v t_ok t_msg :
  pollOnce r = Some kv →
  p_changes (reconcile w kv) !! k = Some v
  ↔ state (loop w r t_ok t_msg) !! k = Some v ∧ state w !! k ≠ Some v.
Proof.
  intros Hr. destruct (kv !! k) as [raw|] eqn:Hk.
  - destruct (decide (state w !! k = Some (trim raw))) as [Hcur|Hcur].
    + destruct (loop_key_same w r kv k raw t_ok t_msg Hr Hk Hcur)
        as (-> & _ & ->).
      split; [done|]. by intros [? ?].
    + destruct (Z.le_gt_cases REQUIRE_STABLE_READS
                  (count (stage (candidate w !! k) (trim raw)))) as [Hc|Hc].
      * destruct (loop_key_commit w r kv k raw t_ok t_msg Hr Hk Hcur Hc)
          as (-> & _ & ->).
        split; [intros ?; simplify_eq; done|by intros [? ?]].
      * destruct (loop_key_stage w r kv k raw t_ok t_msg Hr Hk Hcur Hc)
          as (-> & _ & ->).
        split; [done|]. by intros [? ?].
  - destruct (loop_key_absent w r kv k t_ok t_msg Hr Hk) as (-> & _ & ->).
    split; [done|]. by intros [? ?].
Qed.

Lemma changes_empty w r kv t_ok t_msg :
  pollOnce r = Some kv →
  p_changes (reconcile w kv) = ∅ ↔ state (loop w r t_ok t_msg) = state w.
Proof.
  intros Hr. split.
  - intros Hch. apply map_eq. intros k.
    destruct (state (loop w r t_ok t_msg) !! k) as [v|] eqn:Hk'.
    + destruct (decide (state w !! k = Some v)) as [|Hne]; [done|].
      assert (p_changes (reconcile w kv) !! k = Some v) as Hc
        by (by apply (changes_lookup w r kv k v t_ok t_msg Hr)).
      rewrite Hch, lookup_empty in Hc. done.
    + destruct (state w !! k) as [v|] eqn:Hk; [|done].
      destruct (loop_keeps_keys w r k v t_ok t_msg Hk) as [v' Hv'].
      congruence.
  - intros Hst. apply map_eq. intros k. rewrite lookup_empty.
    destruct (p_changes (reconcile w kv) !! k) as [v|] eqn:Hc; [|done].
    apply (changes_lookup w r kv k v t_ok t_msg Hr) in Hc as [Hc1 Hc2].
    rewrite Hst in Hc1. done.
Qed.

(** ** Failure isolation *)

(** C4. When the fetch rejects or answers with a status that is not ok,
    the cycle changes nothing: [state], [candidate] (counts included),
    [lastFetchOkAt], the clients and the sequence of broadcasts are what
    they were.  In particular a candidate at count T-1 is still at T-1, and
    the next successful cycle that decodes the same value for its key
    commits it. *)
Theorem C4_failed_fetch_aborts_cycle
    (w : world) (r : fetch_result) (t_ok t_msg : string) :
  (r = FetchRejected ∨ ∃ status body, r = FetchResponse false status body) →
  loop w r t_ok t_msg = w
  ∧ state (loop w r t_ok t_msg) = state w
  ∧ candidate (loop w r t_ok t_msg) = candidate w
  ∧ lastFetchOkAt (loop w r t_ok t_msg) = lastFetchOkAt w
  ∧ broadcasts (loop w r t_ok t_msg) = broadcasts w
  ∧ ∀ k v,
      candidate w !! k = Some (Cand v (REQUIRE_STABLE_READS - 1)) →
      candidate (loop w r t_ok t_msg) !! k
      = Some (Cand v (REQUIRE_STABLE_READS - 1))
      ∧ ∀ r2 t3 t4,
          decoded k r2 = Some v → state w !! k ≠ Some v →
          state (loop (loop w r t_ok t_msg) r2 t3 t4) !! k = Some v.
Proof.
  intros Hfail.
  assert (pollOnce r = None) as Hr.
  { destruct Hfail as [->|(status & body & ->)]; reflexivity. }
  rewrite (loop_failed w r t_ok t_msg Hr).
  do 5 (split; [done|]). intros k v Hc. split; [done|].
  intros r2 t3 t4 Hdec Hcur. unfold decoded in Hdec.
  destruct (pollOnce r2) as [kv|] eqn:Hr2; [|done]. simpl in Hdec.
  destruct (kv !! k) as [raw|] eqn:Hk; [|done]. simpl in Hdec.
  pose proof (loop_view w r2 kv k t3 t4 Hr2) as Hv.
  rewrite Hk, Hc in Hv. simplify_eq. unfold key_step, stage in Hv. simpl in Hv.
  rewrite decide_False in Hv by done.
  rewrite decide_True in Hv by done. simpl in Hv.
  replace (REQUIRE_STABLE_READS <=? REQUIRE_STABLE_READS - 1 + 1)%Z
    with true in Hv by (symmetry; apply Z.leb_le; lia).
  by simplify_eq.
Qed.

(** ** Retention of keys *)

(** C7. A key of [state] is never removed: every event (a poll cycle,
    successful or not, an override request, a new connection) and every
    call of [commitChange] leaves it present; and a successful poll cycle
    whose decoded object lacks the key leaves its value as it is. *)
Theorem C7_state_keys_never_deleted (w : world) (e : event) (k v : string) :
  state w !! k = Some v →
  is_Some (state (step w e) !! k)
  ∧ (∀ key val, is_Some ((commitChange (state w) key val).1 !! k))
  ∧ (∀ r kv t_ok t_msg,
       e = Poll r t_ok t_msg → pollOnce r = Some kv → kv !! k = None →
       state (step w e) !! k = Some v).
Proof.
  intros Hk. split; [|split].
  - destruct e as [r t_ok t_msg|req ts|ts]; simpl.
    + by eapply loop_keeps_keys.
    + destruct (override_state w req ts) as [->|(key & val & ->)].
      * by eexists.
      * apply js_set_is_Some. by eexists.
    + by eexists.
  - intros key val. unfold commitChange. case_decide; simpl.
    + by eexists.
    + apply js_set_is_Some. by eexists.
  - intros r kv t_ok t_msg -> Hr Hnone. simpl.
    pose proof (loop_view w r kv k t_ok t_msg Hr) as Hv.
    rewrite Hnone in Hv. injection Hv as Hs _ _. by rewrite Hs.
Qed.

(** ** Patches *)

Lemma cycle_patch_spec (p : pass) t_msg :
  cycle_patch p t_msg
  = if decide (p_changes p = ∅) then [] else [Patch t_msg (p_changes p)].
Proof.
  unfold cycle_patch. case_decide as Hch.
  - by rewrite Hch, map_size_empty.
  - destruct (size (p_changes p)) eqn:Hsz; [|done].
    by apply map_size_empty_iff in Hsz.
Qed.

(** C8. In a successful poll cycle there is a mapping [changes] that holds
    exactly the keys whose committed value changed in the cycle, each with
    its new value; the cycle broadcasts one patch carrying that mapping
    when it is not empty, and broadcasts nothing when it is empty, which
    is the case exactly when [state] is left as it was. *)
Theorem C8_patch_holds_exactly_the_commits
    (w : world) (r : fetch_result) (kv : gmap string string)
    (t_ok t_msg : string) :
  pollOnce r = Some kv →
  ∃ changes : gmap string string,
    (∀ k v, changes !! k = Some v
            ↔ state (loop w r t_ok t_msg) !! k = Some v
              ∧ state w !! k ≠ Some v)
    ∧ (changes = ∅ ↔ state (loop w r t_ok t_msg) = state w)
    ∧ broadcasts (loop w r t_ok t_msg)
      = broadcasts w
        ++ (if decide (changes = ∅) then [] else [Patch t_msg changes]).
Proof.
  intros Hr. exists (p_changes (reconcile w kv)). split; [|split].
  - intros k v. by apply changes_lookup.
  - by apply changes_empty.
  - destruct (loop_ok w r kv t_ok t_msg Hr) as (_ & _ & _ & ->).
    by rewrite cycle_patch_spec.
Qed.

(** ** Observations of the committed value *)

Lemma decoded_Some k r v :
  decoded k r = Some v →
  ∃ kv raw, pollOnce r = Some kv ∧ kv !! k = Some raw ∧ trim raw = v.
Proof.
  unfold decoded. destruct (pollOnce r) as [kv|]; [|done]. simpl.
  destruct (kv !! k) as [raw|] eqn:Hk; [|done]. simpl. intros ?; simplify_eq.
  by exists kv, raw.
Qed.

Lemma cycle_patch_silent (p : pass) k t_msg :
  p_changes p !! k = None → silent_on k (cycle_patch p t_msg).
Proof.
  intros Hk. unfold cycle_patch, silent_on.
  case_match; repeat constructor. done.
Qed.

(** One cycle that decodes the committed value of [k]. *)
Lemma loop_repeat w r k v t_ok t_msg :
  state w !! k = Some v → decoded k r = Some v →
  state (loop w r t_ok t_msg) !! k = Some v
  ∧ candidate (loop w r t_ok t_msg) !! k = None
  ∧ ∃ new, broadcasts (loop w r t_ok t_msg) = broadcasts w ++ new
           ∧ silent_on k new.
Proof.
  intros Hk (kv & raw & Hr & Hraw & <-)%decoded_Some.
  destruct (loop_key_same w r kv k raw t_ok t_msg Hr Hraw Hk)
    as (Hs & Hc & Hch).
  split; [by rewrite Hs|]. split; [done|].
  destruct (loop_ok w r kv t_ok t_msg Hr) as (_ & _ & _ & ->).
  eexists; split; [done|]. by apply cycle_patch_silent.
Qed.

(** C3. Starting from a world where [v] is committed for [k], along any
    sequence of poll cycles that each fail or decode [v] for [k] (with
    connections in between): the committed value of [k] stays [v], every
    message broadcast on the way leaves [k] out, and once one of the
    cycles has succeeded no candidate for [k] is left, whatever candidate
    (at whatever count) there was before. *)
Theorem C3_repeating_committed_value_is_silent
    (w : world) (k v : string) (h : list event) :
  state w !! k = Some v →
  Forall (repeats k v) h →
  state (run w h) !! k = Some v
  ∧ (∃ new, broadcasts (run w h) = broadcasts w ++ new ∧ silent_on k new)
  ∧ (Exists successful_poll h → candidate (run w h) !! k = None).
Proof.
  intros Hk Hh.
  assert (state (run w h) !! k = Some v
          ∧ (∃ new, broadcasts (run w h) = broadcasts w ++ new
                    ∧ silent_on k new)
          ∧ (Exists successful_poll h ∨ candidate w !! k = None →
             candidate (run w h) !! k = None)) as (H1 & H2 & H3);
    [|by auto].
  revert w Hk. induction Hh as [|e h He Hh IH]; intros w Hk.
  { simpl. split; [done|]. split.
    - exists []. split; [by rewrite app_nil_r|constructor].
    - intros [Hex|Hc]; [by apply Exists_nil in Hex|done]. }
  assert (state (step w e) !! k = Some v
          ∧ (∃ new, broadcasts (step w e) = broadcasts w ++ new
                    ∧ silent_on k new)
          ∧ (successful_poll e ∨ candidate w !! k = None →
             candidate (step w e) !! k = None)) as (Hs1 & Hs2 & Hs3).
  { destruct e as [r t_ok t_msg|req ts|ts]; simpl in *.
    - destruct He as [Hfail|Hdec].
      + rewrite loop_failed by done. split; [done|]. split.
        * exists []. split; [by rewrite app_nil_r|constructor].
        * intros [[? Hok]|Hc]; [congruence|done].
      + destruct (loop_repeat w r k v t_ok t_msg Hk Hdec) as (? & ? & ?).
        auto.
    - done.
    - split; [done|]. split.
      + exists []. split; [by rewrite app_nil_r|constructor].
      + intros [[]|Hc]; done. }
  destruct (IH (step w e) Hs1) as (IH1 & (new2 & IH2 & IH2') & IH3).
  destruct Hs2 as (new1 & Hn1 & Hn1').
  rewrite run_cons. split; [done|]. split.
  - exists (new1 ++ new2). split.
    + by rewrite IH2, Hn1, app_assoc.
    + by apply Forall_app.
  - intros [Hex|Hc]; apply IH3.
    + apply Exists_cons in Hex as [He'|Hex]; [right|left]; auto.
    + right. auto.
Qed.

(** ** Stable reads lead to a commit *)

Lemma stage_value c next : value (stage c next) = next.
Proof. unfold stage. repeat case_match; simpl; congruence. Qed.

Lemma stage_count w k v :
  count (stage (candidate w !! k) v) = (progress w k v + 1)%Z.
Proof.
  unfold stage, progress. destruct (candidate w !! k) as [c|]; [|done].
  by case_decide.
Qed.

Lemma stage_fresh (c : option cand) next :
  (∀ c0, c = Some c0 → value c0 ≠ next) → stage c next = Cand next 1.
Proof.
  intros Hc. unfold stage. destruct c as [c0|]; [|done].
  rewrite decide_False; [done|]. by apply Hc.
Qed.

Lemma stage_advance (c0 : cand) :
  stage (Some c0) (value c0) = Cand (value c0) (count c0 + 1).
Proof. unfold stage. by rewrite decide_True. Qed.

Lemma on_the_way_step j w k v e :
  (0 ≤ j)%Z → reads k v e →
  on_the_way j w k v → on_the_way (j + 1) (step w e) k v.
Proof.
  intros Hj He Hw. destruct e as [r t_ok t_msg| |]; simpl in *; try done.
  destruct (decide (state w !! k = Some v)) as [Hcur|Hcur].
  { left. by destruct (loop_repeat w r k v t_ok t_msg Hcur He) as [? _]. }
  destruct Hw as [?|(Hprog & Hpos & _)]; [done|].
  apply decoded_Some in He as (kv & raw & Hr & Hraw & <-).
  pose proof (stage_count w k (trim raw)) as Hcount.
  destruct (Z.le_gt_cases REQUIRE_STABLE_READS
              (count (stage (candidate w !! k) (trim raw)))) as [Hc|Hc].
  - left.
    by destruct (loop_key_commit w r kv k raw t_ok t_msg Hr Hraw Hcur Hc)
      as [? _].
  - right.
    destruct (loop_key_stage w r kv k raw t_ok t_msg Hr Hraw Hcur Hc)
      as (_ & Hcand & _).
    unfold progress, counts_positive. rewrite Hcand.
    rewrite decide_True by apply stage_value.
    split; [lia|]. split; [|lia].
    intros c ?; simplify_eq. lia.
Qed.

Lemma on_the_way_run j w k v h :
  (0 ≤ j)%Z → Forall (reads k v) h →
  on_the_way j w k v → on_the_way (j + Z.of_nat (length h)) (run w h) k v.
Proof.
  intros Hj Hh. revert j w Hj.
  induction Hh as [|e h He Hh IH]; intros j w Hj Hw.
  { simpl. by rewrite Z.add_0_r. }
  rewrite run_cons.
  replace (j + Z.of_nat (length (e :: h)))%Z
    with ((j + 1) + Z.of_nat (length h))%Z by (simpl; lia).
  apply IH; [lia|]. by apply on_the_way_step.
Qed.

(** After max(1, T) successive poll cycles that all decode [v] for [k],
    [v] is committed for [k]. *)
Lemma stable_reads_commit w k v h :
  counts_positive w k →
  Forall (reads k v) h →
  length h = Z.to_nat (Z.max 1 REQUIRE_STABLE_READS) →
  state (run w h) !! k = Some v.
Proof.
  intros Hpos Hh Hlen.
  assert (on_the_way 0 w k v) as Hw.
  { right. split; [|split; [done|lia]].
    unfold progress. destruct (candidate w !! k) as [c|] eqn:Hc; [|done].
    case_decide; [|done]. specialize (Hpos c Hc). lia. }
  pose proof (on_the_way_run 0 w k v h ltac:(lia) Hh Hw) as [?|(H1 & _ & H2)];
    [done|].
  rewrite Hlen in H1, H2. lia.
Qed.

(** ** The empty string for an absent key *)

(** C9. When [k] is absent from [state], a cycle that decodes the empty
    string for [k] treats it as a change: the candidate it works out has
    the empty string as value, with count 1 when there was no candidate
    for the empty string and one more than before when there was; when
    that count reaches T the empty string is committed, removed from the
    candidates and put in the patch, otherwise the candidate is stored and
    [k] stays absent from [state].  From a world with no candidate for
    [k], max(1, T) successive cycles decoding the empty string commit
    it. *)
Theorem C9_empty_string_for_absent_key
    (w : world) (r : fetch_result) (kv : gmap string string)
    (k raw : string) (t_ok t_msg : string) :
  state w !! k = None →
  pollOnce r = Some kv → kv !! k = Some raw → trim raw = EmptyString →
  let c := stage (candidate w !! k) EmptyString in
  value c = EmptyString
  ∧ ((∀ c0, candidate w !! k = Some c0 → value c0 ≠ EmptyString) →
     count c = 1%Z)
  ∧ (∀ n, candidate w !! k = Some (Cand EmptyString n) →
          count c = (n + 1)%Z)
  ∧ ((REQUIRE_STABLE_READS ≤ count c)%Z →
     state (loop w r t_ok t_msg) !! k = Some EmptyString
     ∧ candidate (loop w r t_ok t_msg) !! k = None
     ∧ ∃ changes,
         broadcasts (loop w r t_ok t_msg)
         = broadcasts w ++ [Patch t_msg changes]
         ∧ changes !! k = Some EmptyString)
  ∧ ((count c < REQUIRE_STABLE_READS)%Z →
     state (loop w r t_ok t_msg) !! k = None
     ∧ candidate (loop w r t_ok t_msg) !! k = Some c)
  ∧ (∀ h, candidate w !! k = None →
          Forall (reads k EmptyString) h →
          length h = Z.to_nat (Z.max 1 REQUIRE_STABLE_READS) →
          state (run w h) !! k = Some EmptyString).
Proof.
  intros Hk Hr Hraw Htrim c.
  assert (state w !! k ≠ Some (trim raw)) as Hcur by (rewrite Hk; done).
  split; [apply stage_value|]. split.
  { intros Hc. subst c. by rewrite stage_fresh. }
  split.
  { intros n Hc. subst c. rewrite Hc.
    exact (f_equal count (stage_advance (Cand EmptyString n))). }
  subst c. rewrite <- Htrim. split; [|split].
  - intros Hc.
    destruct (loop_key_commit w r kv k raw t_ok t_msg Hr Hraw Hcur Hc)
      as (Hs & Hcand & Hch).
    split; [done|]. split; [done|].
    destruct (loop_ok w r kv t_ok t_msg Hr) as (_ & _ & _ & ->).
    exists (p_changes (reconcile w kv)). split; [|done].
    rewrite cycle_patch_spec. case_decide as He; [|done].
    rewrite He, lookup_empty in Hch. done.
  - intros Hc.
    destruct (loop_key_stage w r kv k raw t_ok t_msg Hr Hraw Hcur Hc)
      as (Hs & Hcand & _).
    split; [by rewrite Hs|done].
  - intros h Hnone Hh Hlen. apply stable_reads_commit; [|done..].
    intros c0 Hc0. congruence.
Qed.

(** ** A deviating observation *)

(** What a poll cycle adds to the broadcasts leaves out every key whose
    committed value it does not change. *)
Lemma loop_broadcasts w r k t_ok t_msg :
  ∃ new, broadcasts (loop w r t_ok t_msg) = broadcasts w ++ new
         ∧ (state (loop w r t_ok t_msg) !! k = state w !! k →
            silent_on k new).
Proof.
  destruct (pollOnce r) as [kv|] eqn:Hr.
  - destruct (loop_ok w r kv t_ok t_msg Hr) as (_ & _ & _ & ->).
    eexists; split; [done|]. intros Hst. apply cycle_patch_silent.
    destruct (p_changes (reconcile w kv) !! k) as [v|] eqn:Hch; [|done].
    apply (changes_lookup w r kv k v t_ok t_msg Hr) in Hch as [H1 H2].
    congruence.
  - rewrite loop_failed by done. exists []. split.
    + by rewrite app_nil_r.
    + intros _. constructor.
Qed.

Lemma loop_deviation w r kv k raw t_ok t_msg :
  pollOnce r = Some kv → kv !! k = Some raw →
  (∀ c, candidate w !! k = Some c → value c ≠ trim raw) →
  (candidate (loop w r t_ok t_msg) !! k = None
   ∨ candidate (loop w r t_ok t_msg) !! k = Some (Cand (trim raw) 1))
  ∧ ((1 < REQUIRE_STABLE_READS)%Z →
     state (loop w r t_ok t_msg) !! k = state w !! k).
Proof.
  intros Hr Hraw Hdev.
  destruct (decide (state w !! k = Some (trim raw))) as [Hcur|Hcur].
  { destruct (loop_key_same w r kv k raw t_ok t_msg Hr Hraw Hcur)
      as (? & ? & _). auto. }
  pose proof (stage_fresh (candidate w !! k) (trim raw) Hdev) as Hst.
  destruct (Z.le_gt_cases REQUIRE_STABLE_READS
              (count (stage (candidate w !! k) (trim raw)))) as [Hc|Hc].
  - destruct (loop_key_commit w r kv k raw t_ok t_msg Hr Hraw Hcur Hc)
      as (? & ? & _).
    split; [auto|]. rewrite Hst in Hc. simpl in Hc. lia.
  - destruct (loop_key_stage w r kv k raw t_ok t_msg Hr Hraw Hcur Hc)
      as (? & Hcand & _).
    rewrite Hst in Hcand. auto.
Qed.

Lemma oscillation_run k h :
  ∀ w prev (B : Prop),
    Forall no_override h →
    (∀ c, candidate w !! k = Some c →
          prev = Some (value c) ∧ (B → count c = 1%Z)) →
    alternating prev (observations k h) →
    (∀ c, candidate (run w h) !! k = Some c →
          B ∨ observations k h ≠ [] → count c = 1%Z)
    ∧ ((1 < REQUIRE_STABLE_READS)%Z →
       state (run w h) !! k = state w !! k
       ∧ ∃ new, broadcasts (run w h) = broadcasts w ++ new
                ∧ silent_on k new).
Proof.
  induction h as [|e h IH]; intros w prev B Hh Hc Halt.
  { simpl. split.
    - intros c Hcand [HB|Hne]; [|done]. by apply (Hc c Hcand).
    - intros _. split; [done|]. exists []. split; [by rewrite app_nil_r|].
      constructor. }
  apply Forall_cons in Hh as [He Hh]. rewrite run_cons.
  destruct e as [r t_ok t_msg|req ts|ts]; [|done|].
  - simpl. unfold observations in *. simpl in Halt |- *.
    destruct (pollOnce r) as [kv|] eqn:Hr.
    + destruct (loop_broadcasts w r k t_ok t_msg) as (new1 & Hb1 & Hs1).
      destruct (kv !! k) as [raw|] eqn:Hraw; simpl in Halt |- *.
      * destruct Halt as [Hprev Halt].
        assert (∀ c, candidate w !! k = Some c → value c ≠ trim raw)
          as Hdev.
        { intros c Hcand Heq. destruct (Hc c Hcand) as [-> _].
          by rewrite Heq in Hprev. }
        destruct (loop_deviation w r kv k raw t_ok t_msg Hr Hraw Hdev)
          as (Hcand' & Hst').
        destruct (IH (loop w r t_ok t_msg) (Some (trim raw)) True Hh)
          as (IH1 & IH2); [|done|].
        { intros c Hcand. destruct Hcand' as [Hn|Hn];
            rewrite Hn in Hcand; simplify_eq. done. }
        split.
        -- intros c Hcand _. apply (IH1 c Hcand). by left.
        -- intros HT. destruct (IH2 HT) as (IHs & new2 & IHb & IHsil).
           specialize (Hst' HT). split; [congruence|].
           exists (new1 ++ new2). split.
           ++ by rewrite IHb, Hb1, app_assoc.
           ++ apply Forall_app; split; [apply Hs1; assumption|assumption].
      * destruct (loop_key_absent w r kv k t_ok t_msg Hr Hraw)
          as (Hs & Hcd & _).
        destruct (IH (loop w r t_ok t_msg) prev B Hh) as (IH1 & IH2);
          [by rewrite Hcd|done|].
        split; [done|].
        intros HT. destruct (IH2 HT) as (IHs & new2 & IHb & IHsil).
        split; [congruence|].
        exists (new1 ++ new2). split.
        -- by rewrite IHb, Hb1, app_assoc.
        -- apply Forall_app; split; [apply Hs1; assumption|assumption].
    + rewrite loop_failed by done. by apply (IH w prev B).
  - simpl. by apply (IH (connection w ts) prev B).
Qed.

(** C2. When a cycle decodes for [k] a value that differs from the
    committed value of [k] and from the value of the candidate of [k], if
    there is one, the stability logic puts [{ value: observed, count: 1 }]
    in [candidate[k]].  With a threshold above 1 that record is what the
    cycle leaves behind, with no commit and no patch entry for [k]; with a
    threshold of 1 or less, the record meets the threshold at once and the
    value is committed in the same iteration.  Consequently, along poll
    cycles (and connections) in which the values decoded for [k] each
    differ from the one before, the count of the candidate of [k] is 1
    after every observation, and with a threshold above 1 nothing is
    committed or broadcast for [k]. *)
Theorem C2_deviation_resets_count
    (w : world) (r : fetch_result) (kv : gmap string string)
    (k raw : string) (t_ok t_msg : string) :
  pollOnce r = Some kv → kv !! k = Some raw →
  state w !! k ≠ Some (trim raw) →
  (∀ c, candidate w !! k = Some c → value c ≠ trim raw) →
  stage (candidate w !! k) (trim raw) = Cand (trim raw) 1
  ∧ ((1 < REQUIRE_STABLE_READS)%Z →
     candidate (loop w r t_ok t_msg) !! k = Some (Cand (trim raw) 1)
     ∧ state (loop w r t_ok t_msg) !! k = state w !! k
     ∧ ∃ new, broadcasts (loop w r t_ok t_msg) = broadcasts w ++ new
              ∧ silent_on k new)
  ∧ ((REQUIRE_STABLE_READS ≤ 1)%Z →
     candidate (loop w r t_ok t_msg) !! k = None
     ∧ state (loop w r t_ok t_msg) !! k = Some (trim raw))
  ∧ (∀ h, Forall no_override h →
          alternating (Some (trim raw)) (observations k h) →
          let w' := run (loop w r t_ok t_msg) h in
          (∀ c, candidate w' !! k = Some c → count c = 1%Z)
          ∧ ((1 < REQUIRE_STABLE_READS)%Z →
             state w' !! k = state w !! k
             ∧ ∃ new, broadcasts w' = broadcasts w ++ new
                      ∧ silent_on k new)).
Proof.
  intros Hr Hraw Hcur Hdev.
  pose proof (stage_fresh (candidate w !! k) (trim raw) Hdev) as Hst.
  destruct (loop_broadcasts w r k t_ok t_msg) as (new1 & Hb1 & Hs1).
  split; [done|]. split; [|split].
  - intros HT.
    destruct (loop_key_stage w r kv k raw t_ok t_msg Hr Hraw Hcur)
      as (Hs & Hcand & _).
    { rewrite Hst. simpl. lia. }
    rewrite Hst in Hcand. split; [done|]. split; [done|].
    exists new1. auto.
  - intros HT.
    destruct (loop_key_commit w r kv k raw t_ok t_msg Hr Hraw Hcur)
      as (Hs & Hcand & _).
    { rewrite Hst. simpl. lia. }
    done.
  - intros h Hh Halt w'. subst w'.
    destruct (loop_deviation w r kv k raw t_ok t_msg Hr Hraw Hdev)
      as (Hcand' & Hst').
    destruct (oscillation_run k h (loop w r t_ok t_msg) (Some (trim raw))
                True Hh) as (H1 & H2); [|done|].
    { intros c Hcand. destruct Hcand' as [Hn|Hn];
        rewrite Hn in Hcand; simplify_eq. done. }
    split.
    + intros c Hcand. apply (H1 c Hcand). by left.
    + intros HT. destruct (H2 HT) as (Hs2 & new2 & Hb2 & Hsil2).
      specialize (Hst' HT). split; [congruence|].
      exists (new1 ++ new2). split.
      * by rewrite Hb2, Hb1, app_assoc.
      * apply Forall_app; split; [apply Hs1; assumption|assumption].
Qed.

(** ** Candidates and committed values *)

(** A successful cycle sets the candidate of every key it decodes apart
    from the committed value, whatever held before. *)
Lemma loop_sets_apart w r kv k raw t_ok t_msg c :
  pollOnce r = Some kv → kv !! k = Some raw →
  candidate (loop w r t_ok t_msg) !! k = Some c →
  state (loop w r t_ok t_msg) !! k ≠ Some (value c).
Proof.
  intros Hr Hraw Hcand.
  destruct (decide (state w !! k = Some (trim raw))) as [Hcur|Hcur].
  { destruct (loop_key_same w r kv k raw t_ok t_msg Hr Hraw Hcur)
      as (_ & ? & _). congruence. }
  destruct (Z.le_gt_cases REQUIRE_STABLE_READS
              (count (stage (candidate w !! k) (trim raw)))) as [Hc|Hc].
  - destruct (loop_key_commit w r kv k raw t_ok t_msg Hr Hraw Hcur Hc)
      as (_ & ? & _). congruence.
  - destruct (loop_key_stage w r kv k raw t_ok t_msg Hr Hraw Hcur Hc)
      as (Hs & Hcd & _).
    rewrite Hcd in Hcand. simplify_eq. by rewrite Hs, stage_value.
Qed.

Lemma loop_candidate_differs w r t_ok t_msg :
  candidate_differs w → candidate_differs (loop w r t_ok t_msg).
Proof.
  intros Hw. destruct (pollOnce r) as [kv|] eqn:Hr.
  - intros k c Hcand. destruct (kv !! k) as [raw|] eqn:Hraw.
    + by eapply loop_sets_apart.
    + destruct (loop_key_absent w r kv k t_ok t_msg Hr Hraw)
        as (Hs & Hcd & _).
      rewrite Hs. apply Hw. by rewrite <- Hcd.
  - by rewrite loop_failed.
Qed.

(** C5, as amended.  Every poll cycle, successful or not, and every new
    connection preserve the invariant that the value of a candidate
    differs from the committed value of its key; it holds in the initial
    world, so it holds after every history without override requests.
    In a cycle that decodes for a key its committed value, the candidate of
    the key is deleted.  The override handler leaves [candidate] untouched;
    whatever it leaves behind for a key, the next successful cycle that
    decodes the key sets its candidate apart from its committed value
    again. *)
Theorem C5_poll_cycles_keep_candidates_apart (w : world) (h : list event) :
  candidate_differs w → Forall no_override h →
  candidate_differs (run w h)
  ∧ candidate_differs initial
  ∧ (∀ w0 r kv k raw t_ok t_msg,
       pollOnce r = Some kv → kv !! k = Some raw →
       state w0 !! k = Some (trim raw) →
       candidate (loop w0 r t_ok t_msg) !! k = None)
  ∧ (∀ w0 req ts, candidate (override w0 req ts).1 = candidate w0)
  ∧ (∀ w0 r kv k raw t_ok t_msg c,
       pollOnce r = Some kv → kv !! k = Some raw →
       candidate (loop w0 r t_ok t_msg) !! k = Some c →
       state (loop w0 r t_ok t_msg) !! k ≠ Some (value c)).
Proof.
  intros Hw Hh. split; [|split; [|split; [|split]]].
  - revert w Hw. induction Hh as [|e h He Hh IH]; intros w Hw; [done|].
    rewrite run_cons. apply IH.
    destruct e as [r t_ok t_msg|req ts|ts]; simpl in *.
    + by apply loop_candidate_differs.
    + done.
    + done.
  - intros k c Hc. simpl in Hc. by rewrite lookup_empty in Hc.
  - intros w0 r kv k raw t_ok t_msg Hr Hraw Hcur.
    by destruct (loop_key_same w0 r kv k raw t_ok t_msg Hr Hraw Hcur)
      as (_ & ? & _).
  - apply override_candidate.
  - intros. by eapply loop_sets_apart.
Qed.

(** ** What precedes a commit *)

Lemma cycle_reads_app k h1 h2 :
  cycle_reads k (h1 ++ h2) = cycle_reads k h1 ++ cycle_reads k h2.
Proof.
  induction h1 as [|e h1 IH]; [done|].
  destruct e as [r ? ?| |]; simpl; [|done..].
  destruct (pollOnce r); [|done]. by rewrite IH.
Qed.

Lemma observations_app k h1 h2 :
  observations k (h1 ++ h2) = observations k h1 ++ observations k h2.
Proof. unfold observations. by rewrite cycle_reads_app, omap_app. Qed.

Lemma observations_poll k r t_ok t_msg :
  observations k [Poll r t_ok t_msg] = option_list (decoded k r).
Proof.
  unfold observations, decoded. simpl.
  destruct (pollOnce r) as [kv|]; [|done]. simpl.
  by destruct (kv !! k).
Qed.

Lemma replicate_snoc {A} (n : nat) (x : A) :
  replicate n x ++ [x] = replicate (S n) x.
Proof. induction n as [|n IH]; [done|]. simpl. by rewrite IH. Qed.

Lemma replicate_suffix {A} (m n : nat) (x : A) :
  m ≤ n → ∃ front, replicate n x = front ++ replicate m x.
Proof.
  intros Hmn. exists (replicate (n - m) x).
  rewrite <- replicate_add. f_equal. lia.
Qed.

(** The candidate a cycle works out for a key counts the observations
    that end the list, the present one included. *)
Lemma stage_tracked h w k v :
  tracked h w →
  (1 ≤ count (stage (candidate w !! k) v))%Z
  ∧ ∃ older, observations k h ++ [v]
             = older ++ replicate (Z.to_nat (count (stage (candidate w !! k) v))) v.
Proof.
  intros Hw. unfold stage.
  destruct (candidate w !! k) as [c|] eqn:Hc.
  - case_decide as Hv; simpl.
    + destruct (Hw k c Hc) as (Hpos & older & Hobs).
      split; [lia|]. exists older. rewrite Hobs, Hv, <- app_assoc.
      rewrite replicate_snoc. do 2 f_equal. lia.
    + split; [lia|]. by exists (observations k h).
  - simpl. split; [lia|]. by exists (observations k h).
Qed.

Lemma tracked_step h w e : tracked h w → tracked (h ++ [e]) (step w e).
Proof.
  intros Hw k c Hcand. rewrite observations_app.
  destruct e as [r t_ok t_msg|req ts|ts]; simpl in Hcand.
  - rewrite observations_poll. unfold decoded.
    destruct (pollOnce r) as [kv|] eqn:Hr; simpl.
    + destruct (kv !! k) as [raw|] eqn:Hraw; simpl.
      * destruct (decide (state w !! k = Some (trim raw))) as [Hcur|Hcur].
        { destruct (loop_key_same w r kv k raw t_ok t_msg Hr Hraw Hcur)
            as (_ & ? & _). congruence. }
        destruct (Z.le_gt_cases REQUIRE_STABLE_READS
                    (count (stage (candidate w !! k) (trim raw))))
          as [Hc|Hc].
        -- destruct (loop_key_commit w r kv k raw t_ok t_msg Hr Hraw Hcur Hc)
             as (_ & ? & _). congruence.
        -- destruct (loop_key_stage w r kv k raw t_ok t_msg Hr Hraw Hcur Hc)
             as (_ & Hcd & _).
           rewrite Hcd in Hcand. simplify_eq. rewrite stage_value.
           by apply stage_tracked.
      * destruct (loop_key_absent w r kv k t_ok t_msg Hr Hraw)
          as (_ & Hcd & _).
        rewrite Hcd in Hcand. rewrite app_nil_r. by apply Hw.
    + rewrite loop_failed in Hcand by done.
      rewrite app_nil_r. by apply Hw.
  - rewrite override_candidate in Hcand.
    unfold observations at 2. simpl. rewrite app_nil_r. by apply Hw.
  - unfold observations at 2. simpl. rewrite app_nil_r. by apply Hw.
Qed.

Lemma tracked_run h : tracked h (run initial h).
Proof.
  induction h as [|e h IH] using rev_ind.
  - intros k c Hc. simpl in Hc. by rewrite lookup_empty in Hc.
  - rewrite run_app. by apply tracked_step.
Qed.

(** C1, as amended.  After any history from the initial world, when a
    poll cycle commits [v] for [k]: [v] differs from the value committed
    for [k] before the cycle, it is the value committed after it, and the
    max(1, T) most recent values decoded for [k], the present one
    included, are all [v].  Failed cycles, successful cycles whose decoded
    object lacks [k], override requests and connections may lie between
    those observations: each of them leaves the candidate of [k] as it
    is. *)
Theorem C1_commit_follows_stable_reads
    (h : list event) (r : fetch_result) (t_ok t_msg : string)
    (k v : string) :
  commits (run initial h) r k v →
  state (run initial h) !! k ≠ Some v
  ∧ state (loop (run initial h) r t_ok t_msg) !! k = Some v
  ∧ decoded k r = Some v
  ∧ (∃ older,
       observations k (h ++ [Poll r t_ok t_msg])
       = older ++ replicate (Z.to_nat (Z.max 1 REQUIRE_STABLE_READS)) v)
  ∧ (∀ w0 e,
       (∀ r0 t1 t2, e = Poll r0 t1 t2 → decoded k r0 = None) →
       candidate (step w0 e) !! k = candidate w0 !! k).
Proof.
  intros (kv & Hr & Hch). set (w := run initial h) in *.
  pose proof (proj1 (changes_lookup w r kv k v t_ok t_msg Hr) Hch)
    as [Hs' Hs].
  split; [done|]. split; [done|].
  assert (∀ w0 e,
            (∀ r0 t1 t2, e = Poll r0 t1 t2 → decoded k r0 = None) →
            candidate (step w0 e) !! k = candidate w0 !! k) as Hidle.
  { intros w0 [r0 t1 t2|req ts|ts] He; simpl.
    - specialize (He r0 t1 t2 eq_refl). unfold decoded in He.
      destruct (pollOnce r0) as [kv0|] eqn:Hr0; [|by rewrite loop_failed].
      simpl in He. destruct (kv0 !! k) as [raw0|] eqn:Hraw0; [done|].
      by destruct (loop_key_absent w0 r0 kv0 k t1 t2 Hr0 Hraw0) as (_ & ? & _).
    - by rewrite override_candidate.
    - done. }
  destruct (kv !! k) as [raw|] eqn:Hraw.
  2:{ destruct (loop_key_absent w r kv k t_ok t_msg Hr Hraw) as (_ & _ & ?).
      congruence. }
  destruct (decide (state w !! k = Some (trim raw))) as [Hcur|Hcur].
  { destruct (loop_key_same w r kv k raw t_ok t_msg Hr Hraw Hcur)
      as (_ & _ & ?). congruence. }
  destruct (Z.le_gt_cases REQUIRE_STABLE_READS
              (count (stage (candidate w !! k) (trim raw)))) as [Hc|Hc].
  2:{ destruct (loop_key_stage w r kv k raw t_ok t_msg Hr Hraw Hcur Hc)
        as (_ & _ & ?). congruence. }
  destruct (loop_key_commit w r kv k raw t_ok t_msg Hr Hraw Hcur Hc)
    as (_ & _ & Hch').
  assert (trim raw = v) as Hv by congruence.
  assert (decoded k r = Some v) as Hdec.
  { unfold decoded. rewrite Hr. simpl. rewrite Hraw. simpl. by rewrite Hv. }
  split; [done|]. split; [|done].
  rewrite observations_app, observations_poll, Hdec. simpl.
  destruct (stage_tracked h w k v (tracked_run h)) as (Hpos & older & Hobs).
  rewrite Hv in Hc.
  destruct (replicate_suffix
              (Z.to_nat (Z.max 1 REQUIRE_STABLE_READS))
              (Z.to_nat (count (stage (candidate w !! k) v))) v)
    as (front & Hfront); [lia|].
  exists (older ++ front). by rewrite Hobs, Hfront, app_assoc.
Qed.

(** ** Strings *)

Lemma string_app_cons c s t : String c s +:+ t = String c (s +:+ t).
Proof. reflexivity. Qed.

Lemma string_app_nil_r s : s +:+ EmptyString = s.
Proof. induction s as [|c s IH]; [done|]. by rewrite string_app_cons, IH. Qed.

Lemma string_app_assoc s1 s2 s3 : (s1 +:+ s2) +:+ s3 = s1 +:+ (s2 +:+ s3).
Proof.
  induction s1 as [|c s1 IH]; [done|]. by rewrite !string_app_cons, IH.
Qed.

Lemma string_app_length s1 s2 :
  String.length (s1 +:+ s2) = String.length s1 + String.length s2.
Proof.
  induction s1 as [|c s1 IH]; [done|]. rewrite string_app_cons. simpl.
  by rewrite IH.
Qed.

Lemma string_rev_app s1 s2 : String.rev_app s1 s2 = String.rev s1 +:+ s2.
Proof.
  unfold String.rev. revert s2.
  induction s1 as [|c s1 IH]; intros s2; [done|]. simpl.
  rewrite (IH (String c s2)), (IH (String c EmptyString)).
  by rewrite string_app_assoc.
Qed.

Lemma string_rev_cons c s :
  String.rev (String c s) = String.rev s +:+ String c EmptyString.
Proof. unfold String.rev at 1. simpl. apply string_rev_app. Qed.

Lemma string_rev_append s1 s2 :
  String.rev (s1 +:+ s2) = String.rev s2 +:+ String.rev s1.
Proof.
  induction s1 as [|c s1 IH].
  - by rewrite string_app_nil_r.
  - by rewrite string_app_cons, !string_rev_cons, IH, string_app_assoc.
Qed.

Lemma string_rev_involutive s : String.rev (String.rev s) = s.
Proof.
  induction s as [|c s IH]; [done|].
  by rewrite string_rev_cons, string_rev_append, IH.
Qed.

(** ** Lines *)

Lemma split_lines_go_last cur line :
  clean_line line = true →
  split_lines_go cur line = [String.rev cur +:+ line].
Proof.
  revert cur. induction line as [|c line IH]; intros cur Hclean.
  { simpl. by rewrite string_app_nil_r. }
  simpl in Hclean. apply andb_prop in Hclean as [Hc Hrest].
  apply andb_prop in Hc as [Hlf Hcr]. apply negb_true_iff in Hlf.
  assert (split_lines_go (String c cur) line
          = [String.rev cur +:+ String c line]) as Hgo.
  { rewrite (IH _ Hrest), string_rev_cons, string_app_assoc. done. }
  simpl. rewrite Hlf. destruct (Ascii.eqb c CR); [|done].
  destruct line as [|c' line']; [done|].
  simpl in Hrest. apply andb_prop in Hrest as [Hc' _].
  apply andb_prop in Hc' as [Hlf' _]. apply negb_true_iff in Hlf'.
  by rewrite Hlf'.
Qed.

Lemma split_lines_go_line cur line sep rest :
  clean_line line = true →
  sep = String LF EmptyString ∨ sep = CRLF →
  split_lines_go cur (line +:+ sep +:+ rest)
  = (String.rev cur +:+ line) :: split_lines_go EmptyString rest.
Proof.
  intros Hclean Hsep. revert cur Hclean.
  induction line as [|c line IH]; intros cur Hclean.
  { rewrite string_app_nil_r. destruct Hsep as [->| ->]; reflexivity. }
  simpl in Hclean. apply andb_prop in Hclean as [Hc Hrest].
  apply andb_prop in Hc as [Hlf Hcr]. apply negb_true_iff in Hlf.
  assert (split_lines_go (String c cur) (line +:+ sep +:+ rest)
          = (String.rev cur +:+ String c line)
              :: split_lines_go EmptyString rest) as Hgo.
  { rewrite (IH _ Hrest), string_rev_cons, string_app_assoc. done. }
  rewrite string_app_cons. simpl. rewrite Hlf.
  destruct (Ascii.eqb c CR) eqn:Hc; [|done].
  destruct line as [|c' line].
  { simpl in Hcr. done. }
  rewrite string_app_cons in Hgo |- *.
  simpl in Hrest. apply andb_prop in Hrest as [Hc' _].
  apply andb_prop in Hc' as [Hlf' _]. apply negb_true_iff in Hlf'.
  by rewrite Hlf'.
Qed.

Lemma split_lines_go_joined sep ls :
  sep = String LF EmptyString ∨ sep = CRLF →
  ∀ l cur,
    clean_line l = true → Forall (λ x, clean_line x = true) ls →
    split_lines_go cur (join_lines sep l ls) = (String.rev cur +:+ l) :: ls.
Proof.
  intros Hsep. unfold join_lines.
  induction ls as [|x ls IH]; intros l cur Hl Hls.
  - simpl. rewrite string_app_nil_r. by apply split_lines_go_last.
  - apply Forall_cons in Hls as [Hx Hls]. simpl.
    rewrite (split_lines_go_line cur l sep _ Hl Hsep).
    f_equal. apply (IH x EmptyString Hx Hls).
Qed.

(** X4. Splitting a text made of lines that hold no line feed and do not
    end in a carriage return, joined by line feeds or by carriage return
    and line feed, gives back the lines: both kinds of line ends are
    understood, and no line is lost, merged or cut. *)
Theorem split_lines_of_joined_lines (l : string) (ls : list string) :
  Forall (λ x, clean_line x = true) (l :: ls) →
  split_lines (join_lines (String LF EmptyString) l ls) = l :: ls
  ∧ split_lines (join_lines CRLF l ls) = l :: ls.
Proof.
  intros [Hl Hls]%Forall_cons.
  split; apply (split_lines_go_joined _ ls); auto.
Qed.

(** ** Fields of a line *)

(** X5. A field wrapped in one pair of double quotes is unwrapped, whatever
    it holds, and a field that neither starts nor ends with a double quote
    is left as it is. *)
Theorem strip_quotes_unwraps (s : string) :
  strip_quotes (String DQUOTE (s +:+ String DQUOTE EmptyString)) = s
  ∧ (starts_with_quote s = false →
     starts_with_quote (String.rev s) = false →
     strip_quotes s = s).
Proof.
  assert (∀ t, starts_with_quote t = false → drop_leading_quote t = t)
    as Hkeep.
  { intros [|c t] Ht; [done|]. simpl in *. by rewrite Ht. }
  split.
  - unfold strip_quotes.
    change (drop_leading_quote (String DQUOTE (s +:+ String DQUOTE EmptyString)))
      with (s +:+ String DQUOTE EmptyString).
    rewrite string_rev_append.
    change (String.rev (String DQUOTE EmptyString) +:+ String.rev s)
      with (String DQUOTE (String.rev s)).
    change (drop_leading_quote (String DQUOTE (String.rev s)))
      with (String.rev s).
    apply string_rev_involutive.
  - intros Hfront Hback. unfold strip_quotes.
    by rewrite (Hkeep s Hfront), (Hkeep _ Hback), string_rev_involutive.
Qed.

Lemma index_comma_cons c s :
  index 0 "," (String c s)
  = if ascii_dec "," c then Some 0
    else match index 0 "," s with Some n => Some (S n) | None => None end.
Proof.
  cbn [index String.prefix]. destruct (ascii_dec "," c); [|done].
  by destruct s.
Qed.

Lemma index_first_comma k rest :
  contains "," k = false →
  index 0 "," (k +:+ "," +:+ rest) = Some (String.length k).
Proof.
  induction k as [|c k IH]; intros Hk.
  - change (index 0 "," (String "," rest) = Some 0).
    rewrite index_comma_cons. by destruct (ascii_dec "," ",").
  - simpl in Hk. apply orb_false_elim in Hk as [Hc Hk].
    rewrite string_app_cons, index_comma_cons.
    destruct (ascii_dec "," c) as [<-|_]; [done|].
    by rewrite (IH Hk).
Qed.


Lemma substring_all s : substring 0 (String.length s) s = s.
Proof. induction s as [|c s IH]; [done|]. simpl. by rewrite IH. Qed.

Lemma slice_to_prefix k s : slice_to (String.length k) (k +:+ s) = k.
Proof.
  unfold slice_to. induction k as [|c k IH].
  - by destruct s.
  - rewrite string_app_cons. simpl. by rewrite IH.
Qed.

Lemma slice_from_suffix k s :
  slice_from (String.length k + 1) (k +:+ "," +:+ s) = s.
Proof.
  unfold slice_from. rewrite !string_app_length.
  replace (String.length k + (String.length "," + String.length s)
           - (String.length k + 1)) with (String.length s) by (simpl; lia).
  induction k as [|c k IH].
  - simpl. apply substring_all.
  - rewrite string_app_cons. simpl. apply IH.
Qed.

Lemma parse_line_comma (out : gmap string string) (k rest : string) :
  contains "," k = false →
  parse_line out (k +:+ "," +:+ rest)
  = (if decide (trim (strip_quotes k) = EmptyString) then out
     else js_set out (trim (strip_quotes k)) (trim (strip_quotes rest))).
Proof.
  intros Hk. unfold parse_line.
  by rewrite (index_first_comma k rest Hk), slice_to_prefix,
    slice_from_suffix.
Qed.


(** ** The decoder *)

Lemma parse_line_empty_key out line :
  out !! EmptyString = None → parse_line out line !! EmptyString = None.
Proof.
  intros Ho. unfold parse_line. case_match; [|done].
  case_decide as Hk; [done|]. by rewrite js_set_lookup_ne.
Qed.

(** X1. Whatever the text, the decoded object has no entry for the empty
    key and no entry for the key [__proto__]. *)
Theorem parseCsvKeyValue_never_yields_empty_or_proto_key (text : string) :
  parseCsvKeyValue text !! EmptyString = None
  ∧ parseCsvKeyValue text !! proto_key = None.
Proof.
  split; [|apply parseCsvKeyValue_proto].
  unfold parseCsvKeyValue.
  generalize (drop 1 (split_lines (trim text))). intros ls.
  assert (∀ out, out !! EmptyString = None →
                 foldl parse_line out ls !! EmptyString = None) as Hgen.
  { induction ls as [|l ls IH]; intros out Ho; [done|].
    simpl. apply IH. by apply parse_line_empty_key. }
  apply Hgen, lookup_empty.
Qed.

Lemma parse_line_trimmed out line :
  (∀ s, trim (trim s) = trim s) →
  trimmed_entries out → trimmed_entries (parse_line out line).
Proof.
  intros Hidem Ho. unfold parse_line. case_match; [|done].
  case_decide as Hk; [done|]. intros k v. unfold js_set.
  case_decide; [apply Ho|].
  destruct (decide (trim (strip_quotes (slice_to n line)) = k)) as [<-|Hne].
  - rewrite lookup_insert_eq. intros ?; simplify_eq. by rewrite !Hidem.
  - rewrite lookup_insert_ne by done. apply Ho.
Qed.

Lemma parseCsvKeyValue_trimmed text :
  (∀ s, trim (trim s) = trim s) → trimmed_entries (parseCsvKeyValue text).
Proof.
  intros Hidem. unfold parseCsvKeyValue.
  generalize (drop 1 (split_lines (trim text))). intros ls.
  assert (∀ out, trimmed_entries out →
                 trimmed_entries (foldl parse_line out ls)) as Hgen.
  { induction ls as [|l ls IH]; intros out Ho; [done|].
    simpl. apply IH. by apply parse_line_trimmed. }
  apply Hgen. intros k v Hk. by rewrite lookup_empty in Hk.
Qed.

(** X2. When [trim] leaves its own results as they are, every key and
    every value of a decoded object is already trimmed, so that the value
    the loop works with for a key is the decoded value itself. *)
Theorem decoded_entries_are_trimmed
    (r : fetch_result) (kv : gmap string string) (k v : string) :
  (∀ s, trim (trim s) = trim s) →
  pollOnce r = Some kv → kv !! k = Some v →
  trim k = k ∧ trim v = v ∧ decoded k r = Some v.
Proof.
  intros Hidem Hr Hk.
  assert (trimmed_entries kv) as Hkv.
  { destruct r as [|[] status [text|]]; simpl in Hr; simplify_eq.
    by apply parseCsvKeyValue_trimmed. }
  destruct (Hkv k v Hk) as [Htk Htv]. split; [done|]. split; [done|].
  unfold decoded. rewrite Hr. simpl. rewrite Hk. simpl. by rewrite Htv.
Qed.

Lemma parseCsvKeyValue_joined (sep header : string) (ls : list string) :
  sep = String LF EmptyString ∨ sep = CRLF →
  Forall (λ x, clean_line x = true) (header :: ls) →
  trim (join_lines sep header ls) = join_lines sep header ls →
  parseCsvKeyValue (join_lines sep header ls) = foldl parse_line ∅ ls.
Proof.
  intros Hsep [Hh Hls]%Forall_cons Htrim. unfold parseCsvKeyValue.
  rewrite Htrim. unfold split_lines.
  by rewrite (split_lines_go_joined sep ls Hsep header EmptyString Hh Hls).
Qed.

(** X6. For a text that [trim] leaves as it is, made of a first line and
    further lines joined by line feeds, or by carriage return and line
    feed: the first line is skipped whatever it holds, the decoded object
    is what the further lines, taken in order, put in the empty object, and
    a text of one line decodes to the empty object. *)
Theorem parseCsvKeyValue_of_lines
    (sep header : string) (ls : list string) :
  sep = String LF EmptyString ∨ sep = CRLF →
  Forall (λ x, clean_line x = true) (header :: ls) →
  trim (join_lines sep header ls) = join_lines sep header ls →
  parseCsvKeyValue (join_lines sep header ls) = foldl parse_line ∅ ls
  ∧ (ls = [] → parseCsvKeyValue (join_lines sep header ls) = ∅).
Proof.
  intros Hsep Hclean Htrim.
  rewrite (parseCsvKeyValue_joined sep header ls Hsep Hclean Htrim).
  split; [done|]. by intros ->.
Qed.

(** X7. Under the same conditions, when the last line is [k,v] with no
    comma in [k] and the key it yields is neither empty nor [__proto__],
    the decoded object maps that key to the value of that line, whatever
    the lines before it say about the key: of several lines for one key
    the last one wins. *)
Theorem last_line_of_a_key_wins
    (sep header : string) (ls : list string) (k v : string) :
  sep = String LF EmptyString ∨ sep = CRLF →
  Forall (λ x, clean_line x = true) (header :: ls ++ [k +:+ "," +:+ v]) →
  trim (join_lines sep header (ls ++ [k +:+ "," +:+ v]))
  = join_lines sep header (ls ++ [k +:+ "," +:+ v]) →
  contains "," k = false →
  trim (strip_quotes k) ≠ EmptyString →
  trim (strip_quotes k) ≠ proto_key →
  parseCsvKeyValue (join_lines sep header (ls ++ [k +:+ "," +:+ v]))
    !! trim (strip_quotes k)
  = Some (trim (strip_quotes v)).
Proof.
  intros Hsep Hclean Htrim Hk Hne Hproto.
  rewrite (parseCsvKeyValue_joined sep header _ Hsep Hclean Htrim).
  rewrite foldl_app. simpl.
  rewrite (parse_line_comma (foldl parse_line ∅ ls) k v Hk).
  rewrite decide_False by done. by apply js_set_lookup_eq.
Qed.

(** ** Clients *)

Lemma receive_nil c : receive [] c = c.
Proof.
  unfold receive. destruct c as [rs inb]. simpl.
  case_match; [|done]. by rewrite app_nil_r.
Qed.


Lemma broadcast_receive w msg :
  clients (broadcast w msg) = receive [msg] <$> clients w.
Proof. reflexivity. Qed.




(** ** Patches as a record of the changes of [state] *)

Lemma foldl_apply_nil (st : gmap string string) : foldl apply_message st [] = st.
Proof. reflexivity. Qed.

Lemma loop_state_union w r kv t_ok t_msg :
  pollOnce r = Some kv →
  state (loop w r t_ok t_msg) = p_changes (reconcile w kv) ∪ state w.
Proof.
  intros Hr. apply map_eq. intros k.
  destruct (p_changes (reconcile w kv) !! k) as [v|] eqn:Hch.
  - rewrite (lookup_union_Some_l _ _ _ _ Hch).
    by apply (changes_lookup w r kv k v t_ok t_msg Hr) in Hch as [? _].
  - rewrite (lookup_union_r _ _ _ Hch).
    destruct (state (loop w r t_ok t_msg) !! k) as [v'|] eqn:Hk'.
    + destruct (decide (state w !! k = Some v')) as [|Hne]; [done|].
      assert (p_changes (reconcile w kv) !! k = Some v') as Hc
        by (by apply (changes_lookup w r kv k v' t_ok t_msg Hr)).
      congruence.
    + destruct (state w !! k) as [v|] eqn:Hk; [|done].
      destruct (loop_keeps_keys w r k v t_ok t_msg Hk) as [v' Hv'].
      congruence.
Qed.

(** One event that is not an override of [__proto__]: the messages it
    broadcasts, applied to the old state, give the new state; they reach
    the clients that were there; and a client that joins holds a snapshot
    of the new state. *)
Lemma receive_nil_fmap (l : list client) : l = receive [] <$> l.
Proof.
  rewrite <- (list_fmap_id l) at 1.
  apply list_fmap_ext. intros ? c _. by rewrite receive_nil.
Qed.

Ltac no_message :=
  exists [], []; simpl; rewrite ?app_nil_r;
  repeat split;
  first [ done
        | apply receive_nil_fmap
        | (let j := fresh in let Hj := fresh in
           intros j Hj; by apply elem_of_nil in Hj) ].

Lemma step_sync w e :
  ¬ proto_override e →
  ∃ new joined,
    broadcasts (step w e) = broadcasts w ++ new
    ∧ clients (step w e) = (receive new <$> clients w) ++ joined
    ∧ state (step w e) = foldl apply_message (state w) new
    ∧ ∀ j, j ∈ joined → replay (inbox j) = state (step w e).
Proof.
  intros Hproto.
  destruct e as [r t_ok t_msg|req ts|ts]; simpl.
  - destruct (pollOnce r) as [kv|] eqn:Hr.
    + pose proof (loop_state_union w r kv t_ok t_msg Hr) as Hst.
      rewrite Hst. unfold loop. rewrite Hr. case_match eqn:Hsz.
      * exists [Patch t_msg (p_changes (reconcile w kv))], []. simpl.
        rewrite app_nil_r. repeat split; try done.
        intros j Hj. by apply elem_of_nil in Hj.
      * apply Nat.ltb_ge in Hsz.
        assert (p_changes (reconcile w kv) = ∅) as ->
          by (apply map_size_empty_iff; lia).
        rewrite (left_id_L ∅ (∪)). no_message.
    + rewrite loop_failed by done. no_message.
  - simpl in Hproto. unfold override. fold (request_key req).
    destruct (request_key req) as [| |key|] eqn:Hkey; try no_message.
    destruct (negb (js_truthy (JString key))); [no_message|].
    destruct (coerce_value _) as [v|]; [|no_message].
    case_decide as Hcur; simpl; [no_message|].
    exists [Patch ts {[ key := v ]}], []. simpl. rewrite app_nil_r.
    repeat split; try done.
    + unfold js_set. rewrite decide_False by congruence.
      apply insert_union_singleton_l.
    + intros j Hj. by apply elem_of_nil in Hj.
  - exists [], [send (Client OPEN []) (Snapshot ts (state w))]. simpl.
    rewrite app_nil_r. repeat split; try done.
    + f_equal. apply receive_nil_fmap.
    + intros j Hj. apply list_elem_of_singleton in Hj as ->. reflexivity.
Qed.

Lemma replay_app ms1 ms2 :
  replay (ms1 ++ ms2) = foldl apply_message (replay ms1) ms2.
Proof. apply foldl_app. Qed.

Lemma receive_synced st new c :
  (readyState c = OPEN → replay (inbox c) = st) →
  readyState (receive new c) = OPEN →
  replay (inbox (receive new c)) = foldl apply_message st new.
Proof.
  intros Hc. unfold receive. destruct (Z.eqb_spec (readyState c) OPEN) as [Ho|Ho].
  - simpl. intros _. by rewrite replay_app, (Hc Ho).
  - intros Ho'. done.
Qed.

Lemma run_sync w h :
  Forall (λ e, ¬ proto_override e) h →
  ∃ new,
    broadcasts (run w h) = broadcasts w ++ new
    ∧ state (run w h) = foldl apply_message (state w) new
    ∧ (synced w → synced (run w h)).
Proof.
  intros Hh. revert w. induction Hh as [|e h He Hh IH]; intros w.
  { exists []. simpl. by rewrite app_nil_r. }
  rewrite run_cons.
  destruct (step_sync w e He) as (new1 & joined & Hb1 & Hc1 & Hs1 & Hj1).
  destruct (IH (step w e)) as (new2 & Hb2 & Hs2 & Hsync2).
  exists (new1 ++ new2). split; [by rewrite Hb2, Hb1, app_assoc|].
  split; [by rewrite Hs2, Hs1, foldl_app|].
  intros Hw. apply Hsync2. intros c Hc Hopen. rewrite Hc1 in Hc.
  apply elem_of_app in Hc as [Hc|Hc].
  - apply list_elem_of_fmap in Hc as (c0 & -> & Hc0).
    rewrite Hs1. apply receive_synced; [|done]. by apply Hw.
  - by apply Hj1.
Qed.

(** X8. When the copy of every open client is the committed state, it
    still is after any history without an override of the key
    [__proto__]: every change of [state] is broadcast as a patch that
    carries exactly that change, and a client that connects is sent a
    snapshot of [state] as it is at that moment.  This holds in
    particular from the initial world. *)
Theorem open_clients_stay_in_step_with_state (w : world) (h : list event) :
  synced w → Forall (λ e, ¬ proto_override e) h →
  synced (run w h) ∧ synced initial.
Proof.
  intros Hw Hh. split.
  - destruct (run_sync w h Hh) as (_ & _ & _ & Hsync). by apply Hsync.
  - intros c Hc. simpl in Hc. by apply elem_of_nil in Hc.
Qed.


(** ** The health report *)

Lemma step_lastFetchOkAt w e :
  (¬ successful_poll e → lastFetchOkAt (step w e) = lastFetchOkAt w)
  ∧ (∀ r t_ok t_msg,
       e = Poll r t_ok t_msg → is_Some (pollOnce r) →
       lastFetchOkAt (step w e) = Some t_ok).
Proof.
  split.
  - destruct e as [r t_ok t_msg|req ts|ts]; simpl; intros He.
    + destruct (pollOnce r) as [kv|] eqn:Hr; [by destruct He|].
      by rewrite loop_failed.
    + unfold override. by repeat case_match.
    + done.
  - intros r t_ok t_msg -> [kv Hr]. simpl.
    by destruct (loop_ok w r kv t_ok t_msg Hr) as (_ & _ & ? & _).
Qed.

Lemma successful_poll_cases h :
  Exists successful_poll h ∨ ¬ Exists successful_poll h.
Proof.
  induction h as [|e h [IH|IH]].
  - right. by intros ?%Exists_nil.
  - left. by right.
  - destruct e as [r t1 t2| |]; simpl.
    + destruct (pollOnce r) as [kv|] eqn:Hr.
      * left. left. simpl. rewrite Hr. by eexists.
      * right. intros [He|Hex]%Exists_cons; [|done].
        simpl in He. rewrite Hr in He. by destruct He.
    + right. by intros [He|Hex]%Exists_cons.
    + right. by intros [He|Hex]%Exists_cons.
Qed.

Lemma last_successful_poll h :
  Exists successful_poll h →
  ∃ h1 h2 r t_ok t_msg,
    h = h1 ++ Poll r t_ok t_msg :: h2 ∧ is_Some (pollOnce r)
    ∧ ¬ Exists successful_poll h2.
Proof.
  induction h as [|e h IH]; intros Hex; [by apply Exists_nil in Hex|].
  destruct (successful_poll_cases h) as [Hin|Hout].
  - destruct (IH Hin) as (h1 & h2 & r & t1 & t2 & -> & Hr & Hno).
    by exists (e :: h1), h2, r, t1, t2.
  - apply Exists_cons in Hex as [He|Hex]; [|done].
    destruct e as [r t1 t2| |]; try done.
    by exists [], h, r, t1, t2.
Qed.

(** X11. The [lastFetchOkAt] of the health report is the first clock
    reading of the most recent poll cycle whose fetch and decoding
    succeeded: failed cycles, override requests and connections leave it
    as it is, and from the initial world it is null exactly as long as no
    cycle has succeeded. *)
Theorem health_reports_the_last_successful_fetch
    (w : world) (h : list event) (ts : string) :
  (¬ Exists successful_poll h →
   health_lastFetchOkAt (health (run w h) ts) = lastFetchOkAt w)
  ∧ (∀ h1 h2 r t_ok t_msg,
       h = h1 ++ Poll r t_ok t_msg :: h2 → is_Some (pollOnce r) →
       ¬ Exists successful_poll h2 →
       health_lastFetchOkAt (health (run w h) ts) = Some t_ok)
  ∧ (health_lastFetchOkAt (health (run initial h) ts) = None
     ↔ ¬ Exists successful_poll h).
Proof.
  assert (∀ h0 w0, ¬ Exists successful_poll h0 →
                   lastFetchOkAt (run w0 h0) = lastFetchOkAt w0) as Hidle.
  { induction h0 as [|e h0 IH]; intros w0 Hno; [done|].
    rewrite run_cons, IH.
    - apply step_lastFetchOkAt. intros He. apply Hno. by left.
    - intros Hex. apply Hno. by right. }
  assert (∀ w0 h1 h2 r t_ok t_msg,
            is_Some (pollOnce r) → ¬ Exists successful_poll h2 →
            lastFetchOkAt (run w0 (h1 ++ Poll r t_ok t_msg :: h2))
            = Some t_ok) as Hlast.
  { intros w0 h1 h2 r t_ok t_msg Hr Hno.
    rewrite run_app, run_cons, (Hidle h2 _ Hno).
    by eapply step_lastFetchOkAt. }
  split; [by apply Hidle|]. split.
  - intros h1 h2 r t_ok t_msg -> Hr Hno. by apply Hlast.
  - simpl. split.
    + intros Hnone Hex.
      destruct (last_successful_poll h Hex)
        as (h1 & h2 & r & t1 & t2 & -> & Hr & Hno).
      rewrite (Hlast initial h1 h2 r t1 t2 Hr Hno) in Hnone. done.
    + intros Hno. by rewrite (Hidle h initial Hno).
Qed.

Lemma step_state_dom w e : dom (state w) ⊆ dom (state (step w e)).
Proof.
  intros k [v Hk]%elem_of_dom. apply elem_of_dom.
  destruct e as [r t_ok t_msg|req ts|ts]; simpl.
  - by eapply loop_keeps_keys.
  - destruct (override_state w req ts) as [->|(key & val & ->)].
    + by eexists.
    + apply js_set_is_Some. by eexists.
  - by eexists.
Qed.

(** X12. The number of keys in the health report never goes down: after
    any history [state] has all the keys it had before, so the count is at
    least what it was. *)
Theorem health_key_count_never_decreases
    (w : world) (h : list event) (ts ts' : string) :
  dom (state w) ⊆ dom (state (run w h))
  ∧ health_keys (health w ts) ≤ health_keys (health (run w h) ts').
Proof.
  assert (dom (state w) ⊆ dom (state (run w h))) as Hdom.
  { revert w. induction h as [|e h IH]; intros w; [done|].
    rewrite run_cons. etrans; [apply step_state_dom|apply IH]. }
  split; [done|]. simpl. rewrite <- !size_dom. by apply subseteq_size.
Qed.

(** ** Candidate counters *)

Lemma step_below_threshold w e :
  below_threshold w → below_threshold (step w e).
Proof.
  intros Hw k c Hc. destruct e as [r t_ok t_msg|req ts|ts]; simpl in Hc.
  - destruct (pollOnce r) as [kv|] eqn:Hr.
    + destruct (kv !! k) as [raw|] eqn:Hraw.
      * destruct (decide (state w !! k = Some (trim raw))) as [Hcur|Hcur].
        { destruct (loop_key_same w r kv k raw t_ok t_msg Hr Hraw Hcur)
            as (_ & ? & _). congruence. }
        destruct (Z.le_gt_cases REQUIRE_STABLE_READS
                    (count (stage (candidate w !! k) (trim raw))))
          as [Hn|Hn].
        -- destruct (loop_key_commit w r kv k raw t_ok t_msg Hr Hraw Hcur Hn)
             as (_ & ? & _). congruence.
        -- destruct (loop_key_stage w r kv k raw t_ok t_msg Hr Hraw Hcur Hn)
             as (_ & Hcd & _).
           rewrite Hcd in Hc. by simplify_eq.
      * destruct (loop_key_absent w r kv k t_ok t_msg Hr Hraw)
          as (_ & Hcd & _).
        rewrite Hcd in Hc. by apply (Hw k).
    + rewrite loop_failed in Hc by done. by apply (Hw k).
  - rewrite override_candidate in Hc. by apply (Hw k).
  - by apply (Hw k).
Qed.

(** X13. In every world reached from the initial one, by poll cycles,
    override requests and connections in any order, the counter of every
    candidate is at least 1 and below REQUIRE_STABLE_READS: a candidate
    that reaches the threshold is never kept. *)
Theorem candidate_counts_stay_below_threshold
    (h : list event) (k : string) (c : cand) :
  candidate (run initial h) !! k = Some c →
  (1 ≤ count c < REQUIRE_STABLE_READS)%Z.
Proof.
  intros Hc. split.
  - by destruct (tracked_run h k c Hc) as [? _].
  - assert (below_threshold (run initial h)) as Hbelow.
    { clear Hc. induction h as [|e h IH] using rev_ind.
      - intros k' c' Hc'. simpl in Hc'. by rewrite lookup_empty in Hc'.
      - rewrite run_app. by apply step_below_threshold. }
    by apply (Hbelow k c).
Qed.

(** ** Where committed values come from *)

Lemma changes_decoded w r kv k v :
  pollOnce r = Some kv →
  p_changes (reconcile w kv) !! k = Some v → decoded k r = Some v.
Proof.
  intros Hr Hch. unfold decoded. rewrite Hr. simpl.
  pose proof (reconcile_view w kv k (pollOnce_proto r kv Hr)) as Hv.
  unfold view in Hv. rewrite Hch in Hv.
  destruct (kv !! k) as [raw|]; [|by simplify_eq]. simpl.
  unfold key_step in Hv. repeat case_match; by simplify_eq.
Qed.

Lemma override_state_posts w req ts k v :
  state (override w req ts).1 !! k = Some v →
  state w !! k = Some v ∨ posts k v (Override req ts).
Proof.
  simpl. unfold override. fold (request_key req) (request_value req).
  destruct (request_key req) as [| |key|] eqn:Hkey; simpl; auto.
  destruct (String.eqb_spec key EmptyString) as [->|Hne]; simpl; auto.
  destruct (coerce_value (request_value req)) as [v0|] eqn:Hv; simpl; auto.
  case_decide as Hcur; simpl; auto.
  unfold js_set. case_decide as Hproto; auto.
  destruct (decide (key = k)) as [->|Hk].
  - rewrite lookup_insert_eq. intros ?; simplify_eq. right. by split.
  - rewrite lookup_insert_ne by done. auto.
Qed.

(** X14. Every value committed in a world reached from the initial one
    was decoded for its key by a poll cycle of the history or posted for
    its key by an override request of the history: [state] never holds a
    value that nobody supplied. *)
Theorem committed_values_were_decoded_or_posted
    (h : list event) (k v : string) :
  state (run initial h) !! k = Some v →
  (∃ r t_ok t_msg, Poll r t_ok t_msg ∈ h ∧ decoded k r = Some v)
  ∨ (∃ e, e ∈ h ∧ posts k v e).
Proof.
  induction h as [|e h IH] using rev_ind; intros Hk.
  { simpl in Hk. by rewrite lookup_empty in Hk. }
  assert (state (run initial h) !! k = Some v →
          (∃ r t_ok t_msg,
             Poll r t_ok t_msg ∈ h ++ [e] ∧ decoded k r = Some v)
          ∨ (∃ e0, e0 ∈ h ++ [e] ∧ posts k v e0)) as Hold.
  { intros Hk0. destruct (IH Hk0) as [(r & t1 & t2 & Hin & Hd)|(e0 & Hin & Hp)].
    - left. exists r, t1, t2. split; [|done]. apply elem_of_app. by left.
    - right. exists e0. split; [|done]. apply elem_of_app. by left. }
  rewrite run_app in Hk. simpl in Hk.
  destruct e as [r t_ok t_msg|req ts|ts]; simpl in Hk.
  - destruct (decide (state (run initial h) !! k = Some v)) as [|Hne];
      [by apply Hold|].
    destruct (pollOnce r) as [kv|] eqn:Hr;
      [|rewrite loop_failed in Hk by done; by apply Hold].
    left. exists r, t_ok, t_msg. split.
    + apply elem_of_app. right. by apply list_elem_of_singleton.
    + apply (changes_decoded (run initial h) r kv k v Hr).
      by apply (changes_lookup _ r kv k v t_ok t_msg Hr).
  - apply override_state_posts in Hk as [Hk|Hp]; [by apply Hold|].
    right. exists (Override req ts). split; [|done].
    apply elem_of_app. right. by apply list_elem_of_singleton.
  - by apply Hold.
Qed.

(** ** [commitChange] *)

(** X15. For a key other than [__proto__], [commitChange] leaves the key
    committed to the value and every other key as it was, returns true
    exactly when [state] has changed, and called again with the same key
    and value changes nothing and returns false. *)
Theorem commitChange_reports_changes
    (st : gmap string string) (k v : string) :
  k ≠ proto_key →
  (commitChange st k v).1 !! k = Some v
  ∧ (∀ k', k' ≠ k → (commitChange st k v).1 !! k' = st !! k')
  ∧ ((commitChange st k v).2 = true ↔ (commitChange st k v).1 ≠ st)
  ∧ commitChange (commitChange st k v).1 k v
    = ((commitChange st k v).1, false).
Proof.
  intros Hproto. destruct (decide (st !! k = Some v)) as [Hcur|Hcur].
  - assert (commitChange st k v = (st, false)) as Hc
      by (unfold commitChange; by rewrite decide_True).
    rewrite !Hc. simpl. rewrite Hc. by repeat split.
  - assert (commitChange st k v = (js_set st k v, true)) as Hc
      by (unfold commitChange; by rewrite decide_False).
    rewrite !Hc. simpl.
    pose proof (js_set_lookup_eq st k v Hproto) as Hset.
    split; [done|]. split.
    { intros k' Hk'. by rewrite js_set_lookup_ne. }
    split.
    + split; [|done]. intros _ Heq. apply Hcur. by rewrite <- Heq.
    + unfold commitChange. by rewrite decide_True.
Qed.

(** ** Reads below and at the threshold *)

Lemma reads_below_threshold w k v h :
  candidate w !! k = None → state w !! k ≠ Some v →
  Forall (reads k v) h →
  (Z.of_nat (length h) < REQUIRE_STABLE_READS)%Z →
  state (run w h) !! k = state w !! k
  ∧ candidate (run w h) !! k
    = match h with [] => None | _ => Some (Cand v (Z.of_nat (length h))) end
  ∧ ∃ new, broadcasts (run w h) = broadcasts w ++ new ∧ silent_on k new.
Proof.
  intros Hnone Hcur. induction h as [|e h IH] using rev_ind; intros Hh Hlen.
  { simpl. split; [done|]. split; [done|]. exists [].
    split; [by rewrite app_nil_r|constructor]. }
  apply Forall_app in Hh as [Hh He]. apply Forall_cons in He as [He _].
  rewrite length_app in Hlen. simpl in Hlen.
  destruct IH as (IHs & IHc & new1 & IHb & IHsil); [done|lia|].
  rewrite run_app. simpl.
  destruct e as [r t_ok t_msg| |]; try done. simpl in He |- *.
  apply decoded_Some in He as (kv & raw & Hr & Hraw & <-).
  set (w' := run w h) in *.
  assert (count (stage (candidate w' !! k) (trim raw))
          = Z.of_nat (length h) + 1)%Z as Hcount.
  { rewrite IHc. destruct h; [done|]. simpl.
    rewrite decide_True by done. simpl. lia. }
  destruct (loop_key_stage w' r kv k raw t_ok t_msg Hr Hraw)
    as (Hs & Hcd & _); [congruence|lia|].
  destruct (loop_broadcasts w' r k t_ok t_msg) as (new2 & Hb2 & Hsil2).
  split; [congruence|]. split.
  - rewrite Hcd. destruct (h ++ [Poll r t_ok t_msg]) eqn:Happ.
    { by apply app_nil in Happ as [_ ?]. }
    rewrite <- Happ, length_app. simpl.
    assert (stage (candidate w' !! k) (trim raw)
            = Cand (trim raw) (Z.of_nat (length h) + 1)) as ->.
    { pose proof (stage_value (candidate w' !! k) (trim raw)) as Hval.
      destruct (stage _ _) as [sv sc]. simpl in *. by subst. }
    do 2 f_equal. lia.
  - exists (new1 ++ new2). split.
    + by rewrite Hb2, IHb, app_assoc.
    + apply Forall_app; split; [done|]. by apply Hsil2.
Qed.

(** X17. Starting with no candidate for [k] and a committed value other
    than [v], a sequence of fewer than REQUIRE_STABLE_READS successive poll
    cycles that all decode [v] for [k] commits nothing for [k] and
    broadcasts nothing for [k]; it leaves the candidate [{ value: v,
    count: n }] where n is the number of cycles. *)
Theorem reads_below_the_threshold_only_count
    (w : world) (k v : string) (h : list event) :
  candidate w !! k = None → state w !! k ≠ Some v →
  Forall (reads k v) h → h ≠ [] →
  (Z.of_nat (length h) < REQUIRE_STABLE_READS)%Z →
  state (run w h) !! k = state w !! k
  ∧ candidate (run w h) !! k = Some (Cand v (Z.of_nat (length h)))
  ∧ ∃ new, broadcasts (run w h) = broadcasts w ++ new ∧ silent_on k new.
Proof.
  intros Hnone Hcur Hh Hne Hlen.
  destruct (reads_below_threshold w k v h Hnone Hcur Hh Hlen)
    as (Hs & Hc & Hb).
  split; [done|]. split; [|done]. by destruct h.
Qed.

(** ** Agreement with the sheet *)

(** X18. When [state] already holds, for every key of the decoded object,
    the value decoded for it, the cycle leaves [state] as it is, broadcasts
    nothing, leaves no candidate for any decoded key, and records the time
    of the fetch. *)
Theorem cycle_in_agreement_is_quiet
    (w : world) (r : fetch_result) (kv : gmap string string)
    (t_ok t_msg : string) :
  pollOnce r = Some kv →
  (∀ k raw, kv !! k = Some raw → state w !! k = Some (trim raw)) →
  state (loop w r t_ok t_msg) = state w
  ∧ broadcasts (loop w r t_ok t_msg) = broadcasts w
  ∧ (∀ k, is_Some (kv !! k) → candidate (loop w r t_ok t_msg) !! k = None)
  ∧ lastFetchOkAt (loop w r t_ok t_msg) = Some t_ok.
Proof.
  intros Hr Hagree.
  assert (p_changes (reconcile w kv) = ∅) as Hch.
  { apply map_eq. intros k. rewrite lookup_empty.
    destruct (kv !! k) as [raw|] eqn:Hraw.
    - by destruct (loop_key_same w r kv k raw t_ok t_msg Hr Hraw
                     (Hagree k raw Hraw)) as (_ & _ & ?).
    - by destruct (loop_key_absent w r kv k t_ok t_msg Hr Hraw)
        as (_ & _ & ?). }
  destruct (loop_ok w r kv t_ok t_msg Hr) as (_ & _ & Hlast & Hb).
  split; [by apply (changes_empty w r kv t_ok t_msg Hr)|]. split.
  { rewrite Hb, cycle_patch_spec, decide_True by done. apply app_nil_r. }
  split; [|done]. intros k [raw Hraw].
  by destruct (loop_key_same w r kv k raw t_ok t_msg Hr Hraw
                 (Hagree k raw Hraw)) as (_ & ? & _).
Qed.

(** X19. After any history from the initial world, max(1, T) further
    poll cycles that all fetch the same text bring [state] into agreement
    with it: every key of the decoded object is committed to the value
    decoded for it. *)
Theorem state_converges_to_the_sheet
    (h0 h : list event) (r : fetch_result) (kv : gmap string string)
    (k raw : string) :
  pollOnce r = Some kv →
  Forall (λ e, ∃ t_ok t_msg, e = Poll r t_ok t_msg) h →
  length h = Z.to_nat (Z.max 1 REQUIRE_STABLE_READS) →
  kv !! k = Some raw →
  state (run (run initial h0) h) !! k = Some (trim raw).
Proof.
  intros Hr Hh Hlen Hraw. apply stable_reads_commit; [| |done].
  - intros c Hc. by destruct (tracked_run h0 k c Hc) as [? _].
  - eapply Forall_impl; [exact Hh|].
    intros e (t_ok & t_msg & ->). simpl. unfold decoded.
    rewrite Hr. simpl. by rewrite Hraw.
Qed.

(** X20. The outcome of the loop of a successful cycle does not depend on
    the order in which the entries of the decoded object are visited:
    visiting them in any order ends with the same [state], [candidate] and
    [changes]. *)
Theorem cycle_outcome_ignores_the_order_of_entries
    (w : world) (r : fetch_result) (kv : gmap string string)
    (l : list (string * string)) :
  pollOnce r = Some kv → l ≡ₚ map_to_list kv →
  foldl loop_body (Pass (state w) (candidate w) ∅) l = reconcile w kv.
Proof.
  intros Hr Hperm. apply reconcile_any_order; [|done].
  by eapply pollOnce_proto.
Qed.

End Router.

(** ** The override handler *)

Lemma override_rejects w req ts :
  (¬ ∃ k, accepted_key (request_key req) k) →
  override w req ts = (w, Status400 "Missing key").
Proof.
  intros Hno. unfold override. fold (request_key req).
  destruct (request_key req) as [| |k|] eqn:Hkey; try done.
  simpl. destruct (String.eqb_spec k EmptyString) as [->|Hne]; [done|].
  destruct Hno. by exists k.
Qed.

(** What the handler does with an accepted key and a value whose conversion
    to a string succeeds. *)
Lemma override_accepts w req ts k v :
  accepted_key (request_key req) k →
  coerce_value (request_value req) = Some v →
  override w req ts
  = if decide (state w !! k = Some v) then (w, Json200 k (state w !! k))
    else
      let w1 := broadcast
                  (World (js_set (state w) k v) (candidate w)
                         (lastFetchOkAt w) (clients w) (broadcasts w))
                  (Patch ts {[ k := v ]}) in
      (w1, Json200 k (state w1 !! k)).
Proof.
  intros [Hkey Hne] Hval. unfold override.
  fold (request_key req) (request_value req). rewrite Hkey, Hval. simpl.
  destruct (String.eqb_spec k EmptyString) as [->|_]; [done|]. simpl.
  by case_decide.
Qed.

Lemma override_throws w req ts k :
  accepted_key (request_key req) k →
  coerce_value (request_value req) = None →
  override w req ts = (w, Status500).
Proof.
  intros [Hkey Hne] Hval. unfold override.
  fold (request_key req) (request_value req). rewrite Hkey, Hval. simpl.
  by destruct (String.eqb_spec k EmptyString) as [->|_].
Qed.

(** C6, as amended.  POST /override answers 400 exactly when the key of
    the body is missing, is not a string, or is the empty string, and then
    leaves every variable as it is and broadcasts nothing.  For a key that
    is a non-empty string other than [__proto__], and a value whose
    conversion to a string succeeds, the value is committed in the request
    itself, whatever the candidates hold (they are left untouched), and the
    answer carries the key and the committed value. *)
Theorem C6_override_rejects_unusable_keys
    (w : world) (req : option request_body) (ts : string) :
  ((∃ e, (override w req ts).2 = Status400 e)
   ↔ ¬ ∃ k, accepted_key (request_key req) k)
  ∧ ((∃ e, (override w req ts).2 = Status400 e) → (override w req ts).1 = w)
  ∧ (∀ k v,
       accepted_key (request_key req) k → k ≠ proto_key →
       coerce_value (request_value req) = Some v →
       state (override w req ts).1 !! k = Some v
       ∧ candidate (override w req ts).1 = candidate w
       ∧ (override w req ts).2 = Json200 k (Some v)).
Proof.
  assert ((∃ e, (override w req ts).2 = Status400 e)
          ↔ ¬ ∃ k, accepted_key (request_key req) k) as Hiff.
  { split.
    - intros [e He] [k Hk].
      destruct (coerce_value (request_value req)) as [v|] eqn:Hv.
      + rewrite (override_accepts w req ts k v Hk Hv) in He.
        by case_decide.
      + by rewrite (override_throws w req ts k Hk Hv) in He.
    - intros Hno. rewrite (override_rejects w req ts Hno). by eexists. }
  split; [done|]. split.
  - intros He. apply Hiff in He. by rewrite (override_rejects w req ts He).
  - intros k v Hk Hproto Hv. rewrite (override_accepts w req ts k v Hk Hv).
    case_decide as Hcur; simpl.
    + by rewrite Hcur.
    + by rewrite js_set_lookup_eq.
Qed.

(** The handler on every accepted key other than [__proto__]: a value equal
    to the committed one changes nothing and broadcasts nothing; any other
    value is stored and broadcast in one patch that holds that key alone;
    the answer carries the stored value either way. *)
Lemma override_commits w req ts k v :
  accepted_key (request_key req) k → k ≠ proto_key →
  coerce_value (request_value req) = Some v →
  (override w req ts).2 = Json200 k (Some v)
  ∧ state (override w req ts).1 !! k = Some v
  ∧ (state w !! k = Some v → (override w req ts).1 = w)
  ∧ (state w !! k ≠ Some v →
     state (override w req ts).1 = <[k:=v]> (state w)
     ∧ broadcasts (override w req ts).1
       = broadcasts w ++ [Patch ts {[ k := v ]}]).
Proof.
  intros Hk Hproto Hv. rewrite (override_accepts w req ts k v Hk Hv).
  case_decide as Hcur; simpl.
  - rewrite Hcur. done.
  - rewrite js_set_lookup_eq by done.
    split; [done|]. split; [done|]. split; [done|].
    intros _. unfold js_set. by rewrite decide_False.
Qed.

(** C10, at the key [__proto__].  The key passes the guard and its value
    differs from what [state] yields for it, so a patch is broadcast; but
    the assignment stores nothing, the answer does not carry the value, and
    the same request sent again broadcasts the same patch again. *)
Theorem C10_override_of_proto_key_stores_nothing :
  let req := Some (Body (JString "__proto__") (JString "x")) in
  let w1 := (override initial req "t1").1 in
  let w2 := (override w1 req "t2").1 in
  (∃ k, accepted_key (request_key req) k)
  ∧ (override initial req "t1").2 = Json200 "__proto__" None
  ∧ state w1 = ∅
  ∧ broadcasts w1 = [Patch "t1" {[ "__proto__" := "x" ]}]
  ∧ state w2 = ∅
  ∧ broadcasts w2 = [Patch "t1" {[ "__proto__" := "x" ]};
                     Patch "t2" {[ "__proto__" := "x" ]}].
Proof.
  split; [by exists "__proto__"|]. vm_compute. repeat split.
Qed.

(** ** Scenarios *)

Example parseCsvKeyValue_sample :
  map_to_list
    (parseCsvKeyValue trim_ascii
       (sheet [("__proto__", "p"); (EmptyString, "e"); (" a ", "1"); ("a", " 2")]))
  = [("a", "2")].
Proof. vm_compute. reflexivity. Qed.

(** The scenarios of the specification with T = 2. *)
Example scenario_commit_on_second_read :
  let w1 := run 2 trim_ascii initial [poll [("a", "x")]] in
  let w2 := run 2 trim_ascii initial [poll [("a", "x")]; poll [("a", "x")]] in
  candidate w1 !! "a" = Some (Cand "x" 1) ∧ state w1 !! "a" = None
  ∧ broadcasts w1 = []
  ∧ candidate w2 !! "a" = None ∧ state w2 !! "a" = Some "x"
  ∧ broadcasts w2 = [Patch "t" {[ "a" := "x" ]}].
Proof. vm_compute. repeat split. Qed.

Example scenario_reset_on_other_value :
  let w2 := run 2 trim_ascii initial [poll [("a", "x")]; poll [("a", "y")]] in
  candidate w2 !! "a" = Some (Cand "y" 1) ∧ state w2 !! "a" = None
  ∧ broadcasts w2 = [].
Proof. vm_compute. repeat split. Qed.

(** ** Concrete instances *)

(** C1 as worded fails: with T = 2, the key [a] is read as [x], then a
    successful cycle decodes a sheet without [a], then [a] is read as [x]
    again.  The third cycle commits [x], although the two most recent
    successful cycles did not both decode [x] for [a]. *)
Lemma C1_counterexample :
  let h := [poll [("a", "x")]; poll []] in
  commits 2 trim_ascii (run 2 trim_ascii initial h) (fetched [("a", "x")]) "a" "x"
  ∧ cycle_reads trim_ascii "a" (h ++ [poll [("a", "x")]])
    = [Some "x"; None; Some "x"]
  ∧ ¬ ∃ older,
        cycle_reads trim_ascii "a" (h ++ [poll [("a", "x")]])
        = older ++ replicate 2 (Some "x").
Proof.
  split; [|split].
  - eexists. split; [reflexivity|]. vm_compute. reflexivity.
  - vm_compute. reflexivity.
  - intros [older Hreads]. vm_compute in Hreads.
    destruct older as [|a [|b [|c older]]]; simplify_eq.
    destruct older; simplify_eq.
Qed.

Lemma C1_witness :
  let h := [poll [("a", "x")]; post "a" "y"; poll []] in
  state (run 2 trim_ascii initial h) !! "a" ≠ Some "x"
  ∧ state (loop 2 trim_ascii (run 2 trim_ascii initial h)
             (fetched [("a", "x")]) "t" "t") !! "a" = Some "x"
  ∧ decoded trim_ascii "a" (fetched [("a", "x")]) = Some "x"
  ∧ ∃ older,
      observations trim_ascii "a" (h ++ [Poll (fetched [("a", "x")]) "t" "t"])
      = older ++ replicate (Z.to_nat (Z.max 1 2)) "x".
Proof.
  destruct (C1_commit_follows_stable_reads 2 trim_ascii
              [poll [("a", "x")]; post "a" "y"; poll []]
              (fetched [("a", "x")]) "t" "t" "a" "x")
    as (Hbefore & Hafter & Hdec & Hobs & _).
  - eexists. split; [reflexivity|]. vm_compute. reflexivity.
  - done.
Defined.

Lemma C2_witness :
  let w := run 2 trim_ascii initial [poll [("a", "x")]] in
  candidate w !! "a" = Some (Cand "x" 1)
  ∧ candidate (loop 2 trim_ascii w (fetched [("a", "y")]) "t" "t") !! "a"
    = Some (Cand "y" 1).
Proof.
  split; [vm_compute; reflexivity|].
  destruct (C2_deviation_resets_count 2 trim_ascii
              (run 2 trim_ascii initial [poll [("a", "x")]])
              (fetched [("a", "y")])
              (parseCsvKeyValue trim_ascii (sheet [("a", "y")]))
              "a" "y" "t" "t") as (_ & Hstaged & _).
  - reflexivity.
  - vm_compute. reflexivity.
  - vm_compute. discriminate.
  - intros c Hc. vm_compute in Hc. injection Hc as <-. vm_compute. discriminate.
  - apply Hstaged. lia.
Defined.

Lemma C3_witness :
  let w := run 2 trim_ascii initial
             [poll [("a", "x")]; poll [("a", "x")]; poll [("a", "y")]] in
  let h := [poll [("a", "x")]; Poll FetchRejected "t" "t"; Connection "t";
            poll [("a", "x"); ("b", "z")]; poll [("a", "x"); ("b", "z")]] in
  candidate w !! "a" = Some (Cand "y" 1)
  ∧ state (run 2 trim_ascii w h) !! "a" = Some "x"
  ∧ candidate (run 2 trim_ascii w h) !! "a" = None.
Proof.
  split; [vm_compute; reflexivity|].
  destruct (C3_repeating_committed_value_is_silent 2 trim_ascii
              (run 2 trim_ascii initial
                 [poll [("a", "x")]; poll [("a", "x")]; poll [("a", "y")]])
              "a" "x"
              [poll [("a", "x")]; Poll FetchRejected "t" "t"; Connection "t";
               poll [("a", "x"); ("b", "z")]; poll [("a", "x"); ("b", "z")]])
    as (Hstate & _ & Hcand).
  - vm_compute. reflexivity.
  - constructor; [right; vm_compute; reflexivity|].
    constructor; [left; reflexivity|].
    constructor; [exact I|].
    constructor; [right; vm_compute; reflexivity|].
    constructor; [right; vm_compute; reflexivity|].
    constructor.
  - split; [exact Hstate|]. apply Hcand. left. simpl. by eexists.
Defined.

Lemma C4_witness :
  let w := run 2 trim_ascii initial [poll [("a", "x")]] in
  candidate w !! "a" = Some (Cand "x" (2 - 1))
  ∧ loop 2 trim_ascii w FetchRejected "t" "t" = w
  ∧ loop 2 trim_ascii w (FetchResponse false 503 None) "t" "t" = w.
Proof.
  split; [vm_compute; reflexivity|]. split.
  - apply (C4_failed_fetch_aborts_cycle 2 trim_ascii). by left.
  - apply (C4_failed_fetch_aborts_cycle 2 trim_ascii). right. by eexists _, _.
Defined.

(** C5 as worded fails: with T = 2, after one read of [x] for [a] an
    override request commits [x] for [a]; the candidate of [a] is still
    there and its value equals the committed value. *)
Lemma C5_counterexample :
  let w := run 2 trim_ascii initial [poll [("a", "x")]; post "a" "x"] in
  candidate w !! "a" = Some (Cand "x" 1)
  ∧ state w !! "a" = Some "x"
  ∧ ¬ candidate_differs w.
Proof.
  split; [vm_compute; reflexivity|]. split; [vm_compute; reflexivity|].
  intros Hinv. apply (Hinv "a" (Cand "x" 1)); vm_compute; reflexivity.
Qed.

Lemma C5_witness :
  candidate_differs
    (run 2 trim_ascii initial
       [poll [("a", "x")]; poll [("a", "y")]; Connection "t";
        Poll FetchRejected "t" "t"; poll [("a", "y")]; poll [("a", "x")]]).
Proof.
  apply (C5_poll_cycles_keep_candidates_apart 2 trim_ascii initial).
  - intros k c Hc. simpl in Hc. by rewrite lookup_empty in Hc.
  - repeat constructor.
Defined.

(** C6 as worded fails: the empty string is a string, and the handler
    answers 400 for it. *)
Lemma C6_counterexample :
  let req := Some (Body (JString EmptyString) (JString "x")) in
  typeof_string (request_key req) = true
  ∧ override initial req "t" = (initial, Status400 "Missing key").
Proof. split; reflexivity. Qed.

Lemma C7_witness :
  let w := run 2 trim_ascii initial [poll [("a", "x")]; poll [("a", "x")]] in
  state w !! "a" = Some "x"
  ∧ state (step 2 trim_ascii w (poll [("b", "y")])) !! "a" = Some "x".
Proof.
  split; [vm_compute; reflexivity|].
  destruct (C7_state_keys_never_deleted 2 trim_ascii
              (run 2 trim_ascii initial [poll [("a", "x")]; poll [("a", "x")]])
              (poll [("b", "y")]) "a" "x") as (_ & _ & Hkept).
  - vm_compute. reflexivity.
  - eapply Hkept; [reflexivity|reflexivity|]. vm_compute. reflexivity.
Defined.

Lemma C8_witness :
  let w := run 2 trim_ascii initial [poll [("a", "x"); ("b", "y")]] in
  let w' := loop 2 trim_ascii w (fetched [("a", "x"); ("b", "z")]) "t1" "t2" in
  ∃ changes : gmap string string,
    (∀ k v, changes !! k = Some v
            ↔ state w' !! k = Some v ∧ state w !! k ≠ Some v)
    ∧ (changes = ∅ ↔ state w' = state w)
    ∧ broadcasts w'
      = broadcasts w ++ (if decide (changes = ∅) then [] else [Patch "t2" changes]).
Proof.
  apply (C8_patch_holds_exactly_the_commits 2 trim_ascii _ _
           (parseCsvKeyValue trim_ascii (sheet [("a", "x"); ("b", "z")]))).
  reflexivity.
Defined.

Lemma C9_witness :
  let w' := loop 2 trim_ascii initial (fetched [("a", EmptyString)]) "t" "t" in
  state w' !! "a" = None
  ∧ candidate w' !! "a" = Some (Cand EmptyString 1).
Proof.
  destruct (C9_empty_string_for_absent_key 2 trim_ascii initial
              (fetched [("a", EmptyString)])
              (parseCsvKeyValue trim_ascii (sheet [("a", EmptyString)]))
              "a" EmptyString "t" "t")
    as (_ & _ & _ & _ & Hstaged & _).
  - reflexivity.
  - reflexivity.
  - vm_compute. reflexivity.
  - reflexivity.
  - apply Hstaged. vm_compute. reflexivity.
Defined.

Example empty_string_is_committed :
  state (run 2 trim_ascii initial
           [poll [("a", EmptyString)]; poll [("a", EmptyString)]]) !! "a"
  = Some EmptyString.
Proof. vm_compute. reflexivity. Qed.

(** ** Further properties of the override handler *)

(** X16. For every request whose key is not [__proto__], accepted or
    not, sending it a second time changes nothing, broadcasts nothing and
    is answered like the first time. *)
Theorem override_twice_is_override_once
    (w : world) (req : option request_body) (ts ts' : string) :
  request_key req ≠ JString proto_key →
  override (override w req ts).1 req ts'
  = ((override w req ts).1, (override w req ts).2).
Proof.
  intros Hproto.
  destruct (request_key req) as [| |key|t s] eqn:Hkey.
  1,2,4: rewrite !override_rejects; try done;
    intros [k [Hk _]]; congruence.
  destruct (decide (key = EmptyString)) as [->|Hne].
  { rewrite !override_rejects; try done; intros [k [Hk Hk']]; congruence. }
  assert (accepted_key (request_key req) key) as Hacc
    by (by rewrite Hkey).
  destruct (coerce_value (request_value req)) as [v|] eqn:Hv.
  - assert (state (override w req ts).1 !! key = Some v) as Hset.
    { rewrite (override_accepts w req ts key v Hacc Hv).
      case_decide as Hcur; simpl; [done|].
      apply js_set_lookup_eq. congruence. }
    rewrite (override_accepts (override w req ts).1 req ts' key v Hacc Hv).
    rewrite decide_True by done.
    rewrite (override_accepts w req ts key v Hacc Hv).
    by case_decide.
  - by rewrite !(override_throws _ req _ key Hacc Hv).
Qed.

(** ** [trim_ascii] leaves its results as they are *)

Lemma trim_start_no_leading_space s : no_leading_space (trim_start s).
Proof.
  induction s as [|c s IH]; [done|]. cbn [trim_start].
  destruct (Ascii.is_space c) eqn:Hc; [done|]. exact Hc.
Qed.

Lemma trim_start_fixed s : no_leading_space s → trim_start s = s.
Proof. destruct s as [|c s]; [done|]. simpl. by intros ->. Qed.

Lemma trim_start_snoc x c :
  Ascii.is_space c = false →
  ∃ x', trim_start (x +:+ String c EmptyString) = x' +:+ String c EmptyString.
Proof.
  intros Hc. induction x as [|d x IH].
  - exists EmptyString. change (trim_start (String c EmptyString) = String c EmptyString).
    cbn [trim_start]. by rewrite Hc.
  - rewrite string_app_cons. cbn [trim_start].
    destruct (Ascii.is_space d); [done|]. by exists (String d x).
Qed.

Lemma trim_end_no_leading_space a :
  no_leading_space a →
  no_leading_space (String.rev (trim_start (String.rev a))).
Proof.
  destruct a as [|c a]; [done|]. simpl. intros Hc.
  rewrite string_rev_cons.
  destruct (trim_start_snoc (String.rev a) c Hc) as [x' ->].
  rewrite string_rev_append. exact Hc.
Qed.

Lemma trim_ascii_idem s : trim_ascii (trim_ascii s) = trim_ascii s.
Proof.
  unfold trim_ascii.
  pose proof (trim_start_no_leading_space s) as Ha.
  set (a := trim_start s) in *.
  pose proof (trim_end_no_leading_space a Ha) as Hr.
  rewrite (trim_start_fixed _ Hr), string_rev_involutive.
  rewrite (trim_start_fixed (trim_start (String.rev a))); [done|].
  apply trim_start_no_leading_space.
Qed.

(** ** Instances of the further properties *)

Lemma decoded_entries_are_trimmed_witness :
  trim_ascii "x" = "x"
  ∧ decoded trim_ascii "a" (fetched [(" a ", " x ")]) = Some "x".
Proof.
  destruct (decoded_entries_are_trimmed trim_ascii
              (fetched [(" a ", " x ")])
              (parseCsvKeyValue trim_ascii (sheet [(" a ", " x ")]))
              "a" "x") as (_ & Hv & Hd).
  - apply trim_ascii_idem.
  - reflexivity.
  - vm_compute. reflexivity.
  - by split.
Defined.


Lemma split_lines_of_joined_lines_witness :
  split_lines (join_lines (String LF EmptyString) "key,value" ["a,x"; EmptyString; "b,y"])
  = ["key,value"; "a,x"; EmptyString; "b,y"]
  ∧ split_lines (join_lines CRLF "key,value" ["a,x"; EmptyString; "b,y"])
    = ["key,value"; "a,x"; EmptyString; "b,y"].
Proof.
  apply split_lines_of_joined_lines. repeat constructor.
Defined.

Lemma parseCsvKeyValue_of_lines_witness :
  parseCsvKeyValue trim_ascii (join_lines CRLF "k,v" ["a,x"; "b,y"])
  = foldl (parse_line trim_ascii) ∅ ["a,x"; "b,y"].
Proof.
  apply (parseCsvKeyValue_of_lines trim_ascii CRLF "k,v" ["a,x"; "b,y"]).
  - by right.
  - repeat constructor.
  - vm_compute. reflexivity.
Defined.

Lemma last_line_of_a_key_wins_witness :
  parseCsvKeyValue trim_ascii
    (join_lines (String LF EmptyString) "key,value" (["a,x"; "b,y"] ++ ["a" +:+ "," +:+ "z"]))
    !! trim_ascii (strip_quotes "a")
  = Some (trim_ascii (strip_quotes "z")).
Proof.
  apply (last_line_of_a_key_wins trim_ascii (String LF EmptyString)
           "key,value" ["a,x"; "b,y"] "a" "z").
  - by left.
  - repeat constructor.
  - vm_compute. reflexivity.
  - reflexivity.
  - vm_compute. discriminate.
  - vm_compute. discriminate.
Defined.

Lemma open_clients_stay_in_step_with_state_witness :
  synced
    (run 2 trim_ascii initial
       [poll [("a", "x")]; Connection "t"; poll [("a", "x")];
        post "b" "y"; Connection "t"; poll [("b", "z")]; poll [("b", "z")]]).
Proof.
  apply (open_clients_stay_in_step_with_state 2 trim_ascii initial).
  - intros c Hc. simpl in Hc. by apply elem_of_nil in Hc.
  - repeat constructor; simpl; try tauto; vm_compute; discriminate.
Defined.



Lemma candidate_counts_stay_below_threshold_witness :
  (1 ≤ count (Cand "x" 2) < 3)%Z.
Proof.
  apply (candidate_counts_stay_below_threshold 3 trim_ascii
           [poll [("a", "x")]; Poll FetchRejected "t" "t"; poll [("a", "x")]]
           "a" (Cand "x" 2)).
  vm_compute. reflexivity.
Defined.

Lemma committed_values_were_decoded_or_posted_witness :
  let h := [poll [("a", "x")]; post "a" "y"; poll [("a", "x")]] in
  (∃ r t_ok t_msg,
     Poll r t_ok t_msg ∈ h ∧ decoded trim_ascii "a" r = Some "x")
  ∨ (∃ e, e ∈ h ∧ posts "a" "x" e).
Proof.
  apply (committed_values_were_decoded_or_posted 2 trim_ascii
           [poll [("a", "x")]; post "a" "y"; poll [("a", "x")]] "a" "x").
  vm_compute. reflexivity.
Defined.

Lemma commitChange_reports_changes_witness :
  commitChange (commitChange ∅ "a" "x").1 "a" "x"
  = ((commitChange ∅ "a" "x").1, false).
Proof.
  apply (commitChange_reports_changes ∅ "a" "x"). discriminate.
Defined.

Lemma override_twice_is_override_once_witness :
  let req := Some (Body (JString "a") (JOther true (Some "5"))) in
  override (override initial req "t1").1 req "t2"
  = ((override initial req "t1").1, (override initial req "t1").2).
Proof.
  apply override_twice_is_override_once. simpl. discriminate.
Defined.

Lemma reads_below_the_threshold_only_count_witness :
  let h := [poll [("a", "x")]; poll [("a", "x"); ("b", "y")]] in
  state (run 3 trim_ascii initial h) !! "a" = state initial !! "a"
  ∧ candidate (run 3 trim_ascii initial h) !! "a"
    = Some (Cand "x" (Z.of_nat (length h)))
  ∧ ∃ new, broadcasts (run 3 trim_ascii initial h) = broadcasts initial ++ new
           ∧ silent_on "a" new.
Proof.
  apply (reads_below_the_threshold_only_count 3 trim_ascii initial "a" "x").
  - reflexivity.
  - simpl. rewrite lookup_empty. discriminate.
  - repeat constructor; vm_compute; reflexivity.
  - discriminate.
  - simpl. lia.
Defined.

Lemma cycle_in_agreement_is_quiet_witness :
  let w := run 2 trim_ascii initial
             [poll [("a", "x")]; poll [("a", "x")]; poll [("a", "y")]] in
  state (loop 2 trim_ascii w (fetched [("a", "x")]) "t1" "t2") = state w
  ∧ broadcasts (loop 2 trim_ascii w (fetched [("a", "x")]) "t1" "t2")
    = broadcasts w.
Proof.
  destruct (cycle_in_agreement_is_quiet 2 trim_ascii
              (run 2 trim_ascii initial
                 [poll [("a", "x")]; poll [("a", "x")]; poll [("a", "y")]])
              (fetched [("a", "x")])
              (parseCsvKeyValue trim_ascii (sheet [("a", "x")]))
              "t1" "t2") as (Hs & Hb & _).
  - reflexivity.
  - intros k raw Hk.
    destruct (decide (k = "a")) as [->|Hne].
    + vm_compute in Hk. injection Hk as <-. vm_compute. reflexivity.
    + exfalso. revert Hk.
      change (parseCsvKeyValue trim_ascii (sheet [("a", "x")]))
        with (js_set (∅ : gmap string string) "a" "x").
      rewrite js_set_lookup_ne by done. by rewrite lookup_empty.
  - by split.
Defined.

Lemma state_converges_to_the_sheet_witness :
  state
    (run 2 trim_ascii
       (run 2 trim_ascii initial [poll [("a", "x")]; post "a" "q"])
       [Poll (fetched [("a", "y"); ("b", "z")]) "t1" "t2";
        Poll (fetched [("a", "y"); ("b", "z")]) "t3" "t4"]) !! "b"
  = Some (trim_ascii "z").
Proof.
  apply (state_converges_to_the_sheet 2 trim_ascii
           [poll [("a", "x")]; post "a" "q"] _
           (fetched [("a", "y"); ("b", "z")])
           (parseCsvKeyValue trim_ascii (sheet [("a", "y"); ("b", "z")]))).
  - reflexivity.
  - repeat constructor; by eexists _, _.
  - reflexivity.
  - vm_compute. reflexivity.
Defined.

Lemma cycle_outcome_ignores_the_order_of_entries_witness :
  foldl (loop_body 1 trim_ascii) (Pass (state initial) (candidate initial) ∅)
    [("b", "y"); ("a", "x")]
  = reconcile 1 trim_ascii initial
      (parseCsvKeyValue trim_ascii (sheet [("a", "x"); ("b", "y")])).
Proof.
  apply (cycle_outcome_ignores_the_order_of_entries 1 trim_ascii initial
           (fetched [("a", "x"); ("b", "y")])).
  - reflexivity.
  - assert (map_to_list (parseCsvKeyValue trim_ascii
                           (sheet [("a", "x"); ("b", "y")]))
            = [("a", "x"); ("b", "y")]) as -> by (vm_compute; reflexivity).
    apply perm_swap.
Defined.
